(** * pwndbg.disasm: disassembly at an address, or at an address +/- a few
    instructions.

    A shallow embedding of [pwndbg/disasm/__init__.py] and the properties of
    its decoder session factory, its memoized single-instruction resolver,
    its backward-link cache and its window resolver [near].

    The module's globals [backward_cache] and the table behind the memoized
    [get_one_instruction] are threaded as an explicit state; the debugger,
    the decoder, the enhancement hook and the emulator are read from an
    environment.  The function [fix], which nothing in the module calls, is
    left out. *)

From Stdlib Require Import ZArith Lia.
From stdpp Require Import gmap strings list.

Local Open Scope Z_scope.

(** ** Constants of the capstone binding

    [from capstone import *]: the numeric values are those of the capstone
    Python binding, an external library. *)

Definition CS_ARCH_ARM   : Z := 0.
Definition CS_ARCH_ARM64 : Z := 1.
Definition CS_ARCH_MIPS  : Z := 2.
Definition CS_ARCH_X86   : Z := 3.
Definition CS_ARCH_PPC   : Z := 4.
Definition CS_ARCH_SPARC : Z := 5.

Definition CS_MODE_LITTLE_ENDIAN : Z := 0.
Definition CS_MODE_ARM           : Z := 0.
Definition CS_MODE_32            : Z := Z.shiftl 1 2.
Definition CS_MODE_64            : Z := Z.shiftl 1 3.
Definition CS_MODE_THUMB         : Z := Z.shiftl 1 4.
Definition CS_MODE_BIG_ENDIAN    : Z := Z.shiftl 1 31.

Definition CS_GRP_INVALID   : Z := 0.
Definition CS_GRP_JUMP      : Z := 1.
Definition CS_GRP_CALL      : Z := 2.
Definition CS_GRP_RET       : Z := 3.
Definition CS_GRP_INT       : Z := 4.
Definition CS_GRP_IRET      : Z := 5.
Definition CS_GRP_PRIVILEGE : Z := 6.

(** ** Module-level tables *)

Definition CapstoneArch : gmap string Z :=
  list_to_map
    [ ("arm",     CS_ARCH_ARM);
      ("aarch64", CS_ARCH_ARM64);
      ("i386",    CS_ARCH_X86);
      ("x86-64",  CS_ARCH_X86);
      ("powerpc", CS_ARCH_PPC);
      ("mips",    CS_ARCH_MIPS);
      ("sparc",   CS_ARCH_SPARC) ]%string.

Definition CapstoneEndian : gmap string Z :=
  list_to_map
    [ ("little", CS_MODE_LITTLE_ENDIAN);
      ("big",    CS_MODE_BIG_ENDIAN) ]%string.

Definition CapstoneMode : gmap Z Z :=
  list_to_map [ (4, CS_MODE_32); (8, CS_MODE_64) ].

(** For variable-instruction-width architectures the module keeps the
    largest instruction size. *)
Definition VariableInstructionSizeMax : gmap string Z :=
  list_to_map [ ("i386", 16); ("x86-64", 16); ("mips", 8) ]%string.

(** The dictionary literal of [get_disassembler], indexed by
    [cpsr & 0x20]. *)
Definition ThumbMode : gmap Z Z :=
  list_to_map [ (0, CS_MODE_ARM); (32, CS_MODE_THUMB) ].

(** ** Exceptions and results

    A failed dictionary subscript raises [KeyError]; the table tells which
    subscript failed.  [CsError] is what the constructor [Cs(arch, mode)] of
    the capstone binding raises for an architecture and mode it rejects.
    [OutOfFuel] is not a Python exception: it marks a loop of the model that
    was given too few iterations, and [near_never_out_of_fuel] shows that
    [near] never produces it. *)

Inductive Table : Set :=
  | TCapstoneArch
  | TCapstoneMode
  | TCapstoneEndian
  | TThumbMode.

Inductive Exc : Set :=
  | KeyError (t : Table)
  | CsError
  | OutOfFuel.

(** The names the design gives to the two configuration errors. *)
Definition UnsupportedArchitecture : Exc := KeyError TCapstoneArch.
Definition UnsupportedPointerWidth : Exc := KeyError TCapstoneMode.

(** The exceptions of the decoder session factory. *)
Definition configuration_error (e : Exc) : Prop :=
  match e with
  | KeyError _ | CsError => True
  | OutOfFuel => False
  end.

Inductive Result (A : Type) : Type :=
  | Ok (a : A)
  | Raise (e : Exc).
Arguments Ok {A} a.
Arguments Raise {A} e.

(** [d[k]] on a dictionary. *)
Definition subscript {K V : Type} `{Countable K}
    (t : Table) (d : gmap K V) (k : K) : Result V :=
  match d !! k with
  | Some v => Ok v
  | None => Raise (KeyError t)
  end.

(** ** The decoder session factory *)

(** The handle built by [Cs(arch, mode)], with its [detail] attribute. *)
Record Cs : Set := mkCs { cs_arch : Z; cs_mode : Z; detail : bool }.

(** [get_disassembler_cached(arch, ptrsize, endian, extra=None)].  The
    [reset_on_objfile] memoization only spares the construction of an equal
    handle and is not modelled.  The constructor [Cs] belongs to the capstone
    binding: [Cs_accepts arch mode] tells whether [Cs(arch, mode)] builds a
    handle or raises [CsError]. *)
Definition get_disassembler_cached (Cs_accepts : Z -> Z -> bool)
    (arch : string) (ptrsize : Z) (endian : string) (extra : option Z)
  : Result Cs :=
  match subscript TCapstoneArch CapstoneArch arch with
  | Raise e => Raise e
  | Ok arch =>
    match (match extra with
           | None => subscript TCapstoneMode CapstoneMode ptrsize
           | Some extra => Ok extra
           end) with
    | Raise e => Raise e
    | Ok mode =>
      match subscript TCapstoneEndian CapstoneEndian endian with
      | Raise e => Raise e
      | Ok e =>
        let mode := Z.lor mode e in
        if Cs_accepts arch mode then
          let cs := mkCs arch mode false in
          Ok (mkCs (cs_arch cs) (cs_mode cs) true)
        else Raise CsError
      end
    end
  end.

(** ** Data model *)

(** The record [md.disasm] yields for one instruction. *)
Record CsInsn : Set := mkCsInsn {
  cs_address : Z;
  cs_size    : Z;
  cs_groups  : list Z;
}.

(** A decoded instruction after [DisassemblyAssistant.enhance], which adds
    the attributes [next] and [target] to the decoder's record. *)
Record Instruction : Set := mkInstruction {
  address : Z;
  size    : Z;
  groups  : list Z;
  next    : Z;
  target  : option Z;
}.

(** The emulator of [pwndbg.emu.emulator]: [Emulator()] builds an object
    whose [single_step()] answers a pair (address, size), either of which
    may be [None], and advances the object. *)
Record EmulatorClass : Type := {
  emu_state   : Type;
  Emulator    : emu_state;
  single_step : emu_state -> (option Z * option Z) * emu_state;
}.

(** What the module reads from the debugger and from its collaborators. *)
Record Env : Type := {
  arch_current : string;                 (* pwndbg.arch.current *)
  arch_ptrsize : Z;                      (* pwndbg.arch.ptrsize *)
  arch_endian  : string;                 (* pwndbg.arch.endian *)
  regs_cpsr    : Z;                      (* pwndbg.regs.cpsr *)
  regs_pc      : Z;                      (* pwndbg.regs.pc *)
  memory_peek  : Z -> bool;              (* pwndbg.memory.peek(address) *)
  memory_read  : Z -> Z -> list Byte.byte;
                                         (* pwndbg.memory.read(address, size, partial=True) *)
  Cs_accepts   : Z -> Z -> bool;         (* Cs(arch, mode) builds a handle *)
  cs_disasm    : Cs -> list Byte.byte -> Z -> list CsInsn;
                                         (* md.disasm(bytes, address, 1) *)
  enhance      : CsInsn -> Z * option Z; (* the [next] and [target] set by enhance *)
  emu_module   : bool;                   (* pwndbg.emu was imported *)
  arch_to_UC   : list string;            (* pwndbg.emu.emulator.arch_to_UC *)
  emulator     : EmulatorClass;
}.

(** Calls to the collaborators, newest first. *)
Inductive Event : Set :=
  | EvRead (address size : Z)
  | EvDisasm (address : Z)
  | EvEmulator
  | EvSingleStep.

(** The mutable state of the module: the defaultdict [backward_cache], the
    table of the memoized [get_one_instruction], and the calls made so
    far. *)
Record State : Type := mkState {
  backward_cache : gmap Z (option Z);
  get_one_instruction_cache : gmap Z (option Instruction);
  calls : list Event;
}.

Definition set_backward_cache (f : gmap Z (option Z) -> gmap Z (option Z))
    (st : State) : State :=
  mkState (f (backward_cache st)) (get_one_instruction_cache st) (calls st).

Definition set_get_one_instruction_cache
    (f : gmap Z (option Instruction) -> gmap Z (option Instruction))
    (st : State) : State :=
  mkState (backward_cache st) (f (get_one_instruction_cache st)) (calls st).

Definition log (e : Event) (st : State) : State :=
  mkState (backward_cache st) (get_one_instruction_cache st) (e :: calls st).

(** ** A state and exception monad *)

Definition M (A : Type) : Type := State -> Result A * State.

Definition ret {A : Type} (a : A) : M A := fun st => (Ok a, st).

Definition raise {A : Type} (e : Exc) : M A := fun st => (Raise e, st).

Definition bind {A B : Type} (c : M A) (k : A -> M B) : M B :=
  fun st =>
    match c st with
    | (Ok a, st') => k a st'
    | (Raise e, st') => (Raise e, st')
    end.

Definition lift {A : Type} (r : Result A) : M A := fun st => (r, st).

Definition modify (f : State -> State) : M unit := fun st => (Ok tt, f st).

Notation "x <- c ;; k" := (bind c (fun x => k))
  (at level 100, c at next level, right associativity).
Notation "c ;; k" := (bind c (fun _ => k))
  (at level 100, k at level 200, right associativity).

(** ** The module's functions *)

(** Python truth value of [None] or an integer. *)
Definition truthy (v : option Z) : bool :=
  match v with
  | Some n => negb (n =? 0)
  | None => false
  end.

(** [backward_cache[k]]: a [defaultdict] stores the default [None] under a
    missing key when the key is read. *)
Definition backward_cache_getitem (k : Z) : M (option Z) :=
  fun st =>
    match backward_cache st !! k with
    | Some v => (Ok v, st)
    | None => (Ok None, set_backward_cache <[k := None]> st)
    end.

(** [backward_cache[k] = v]. *)
Definition backward_cache_setitem (k v : Z) : M unit :=
  modify (set_backward_cache <[k := Some v]>).

(** Modelled from the spec: the decorator [pwndbg.memoize.reset_on_cont]
    (module [pwndbg/memoize.py], which is not part of the source under
    study).  "Result is memoized keyed by (address, execution generation); a
    second call with the same key returns the cached value without
    re-reading memory or re-decoding."  The result of the resolver is an
    instruction or not-found, and either is stored; a call that raises
    stores nothing. *)
Definition reset_on_cont (func : Z -> M (option Instruction)) (addr : Z)
  : M (option Instruction) :=
  fun st =>
    match get_one_instruction_cache st !! addr with
    | Some value => (Ok value, st)
    | None =>
      (value <- func addr ;;
       modify (set_get_one_instruction_cache <[addr := value]>) ;;
       ret value) st
    end.

(** Modelled from the spec: the execution-generation boundary of
    [reset_on_cont] (also in [pwndbg/memoize.py]).  "any time the debuggee
    resumes and stops again, the Single-Instruction Memoization Table must
    be treated as stale and cleared [...] The Backward-Link Cache is NOT
    cleared on this boundary". *)
Definition cont (st : State) : State :=
  set_get_one_instruction_cache (fun _ => ∅) st.

(** [DO_NOT_EMULATE]: the PRIVILEGE group is explicitly left out. *)
Definition DO_NOT_EMULATE : gset Z :=
  {[ CS_GRP_CALL; CS_GRP_INT; CS_GRP_INVALID; CS_GRP_IRET ]}.

(** [set(insn.groups) & DO_NOT_EMULATE] as a truth value. *)
Definition do_not_emulate (insn : Instruction) : bool :=
  negb (bool_decide (list_to_set (groups insn) ∩ DO_NOT_EMULATE = (∅ : gset Z))).

(** [capstone.CS_GRP_CALL in insn.groups]. *)
Definition is_call (insn : Instruction) : bool :=
  bool_decide (CS_GRP_CALL ∈ groups insn).

Section Disasm.

Context (env : Env).

Definition get_disassembler (pc : Z) : Result Cs :=
  let extra := None in
  match (if bool_decide (arch_current env ∈ ["arm"; "aarch64"]%string) then
           match subscript TThumbMode ThumbMode (Z.land (regs_cpsr env) 32) with
           | Ok m => Ok (Some m)
           | Raise e => Raise e
           end
         else Ok extra) with
  | Raise e => Raise e
  | Ok extra =>
    get_disassembler_cached (Cs_accepts env)
      (arch_current env) (arch_ptrsize env) (arch_endian env) extra
  end.

(** The body of [get_one_instruction], under its decorator. *)
Definition get_one_instruction_func (addr : Z) : M (option Instruction) :=
  md <- lift (get_disassembler addr) ;;
  let size := default 4 (VariableInstructionSizeMax !! arch_current env) in
  modify (log (EvRead addr size)) ;;
  let data := memory_read env addr size in
  modify (log (EvDisasm addr)) ;;
  match cs_disasm env md data addr with
  | ins :: _ =>
    let '(n, t) := enhance env ins in
    ret (Some (mkInstruction (cs_address ins) (cs_size ins) (cs_groups ins) n t))
  | [] => ret None
  end.

Definition get_one_instruction : Z -> M (option Instruction) :=
  reset_on_cont get_one_instruction_func.

(** The loop [for _ in range(instructions)] of [get]. *)
Fixpoint get_loop (n : nat) (addr : Z) (retval : list Instruction)
  : M (list Instruction) :=
  match n with
  | O => ret retval
  | S n' =>
    i <- get_one_instruction addr ;;
    match i with
    | None => ret retval
    | Some i => get_loop n' (next i) (retval ++ [i])
    end
  end.

Definition get (addr : Z) (instructions : Z) : M (list Instruction) :=
  (* Dont disassemble if there's no memory *)
  if negb (memory_peek env addr) then ret []
  else get_loop (Z.to_nat instructions) addr [].

Definition one (addr : option Z) : M (option Instruction) :=
  let addr := match addr with None => regs_pc env | Some a => a end in
  if negb (memory_peek env addr) then ret None
  else
    l <- get addr 1 ;;
    match l with
    | insn :: _ =>
      backward_cache_setitem (next insn) (address insn) ;;
      ret (Some insn)
    | [] => ret None
    end.

(** [one(cached) if cached else None]. *)
Definition one_if_cached (cached : option Z) : M (option Instruction) :=
  if truthy cached then one cached else ret None.

(** The backward loop of [near]:
    [while insn is not None and len(insns) < instructions]. *)
Fixpoint near_backward (fuel : nat) (instructions : Z)
    (insn : option Instruction) (insns : list Instruction)
  : M (list Instruction) :=
  match insn with
  | None => ret insns
  | Some i =>
    if Z.of_nat (length insns) <? instructions then
      match fuel with
      | O => raise OutOfFuel
      | S fuel' =>
        let insns := insns ++ [i] in
        cached <- backward_cache_getitem (address i) ;;
        insn <- one_if_cached cached ;;
        near_backward fuel' instructions insn insns
      end
    else ret insns
  end.

Definition emu_t : Type := emu_state (emulator env).

(** [emu.single_step()]. *)
Definition emu_single_step (emu : emu_t)
  : M ((option Z * option Z) * emu_t) :=
  modify (log EvSingleStep) ;;
  ret (single_step (emulator env) emu).

(** The choice of the next address in one round of the forward loop of
    [near], from [target = insn.target] to just before [insn = one(target)].
    It returns [target], [emulate] and [emu]. *)
Definition near_forward_target (pc : Z) (insn : Instruction)
    (emulate : bool) (emu : option emu_t)
  : M (option Z * bool * option emu_t) :=
  let target := target insn in
  (* Disable emulation if necessary *)
  let '(emulate, emu) :=
    if emulate && do_not_emulate insn then (false, None) else (emulate, emu) in
  (* Continue disassembling after a RET or JUMP, but don't follow through CALL. *)
  if is_call insn then
    ret (Some (next insn), emulate, emu)
  else
    match emu with
    | Some e =>
      r <- emu_single_step e ;;
      let '(target_candidate, size_candidate, e) := r in
      match target_candidate, size_candidate with
      | Some _, Some _ => ret (target_candidate, emulate, Some e)
      | _, _ => ret (target, emulate, Some e)
      end
    | None =>
      if negb (bool_decide (target = Some pc)) then
        ret (Some (next insn), emulate, emu)
      else ret (target, emulate, emu)
    end.

(** The forward loop of [near]:
    [while insn and len(insns) < total_instructions]. *)
Fixpoint near_forward (fuel : nat) (pc total_instructions : Z)
    (insn : option Instruction) (insns : list Instruction)
    (emulate : bool) (emu : option emu_t)
  : M (list Instruction) :=
  match insn with
  | None => ret insns
  | Some i =>
    if Z.of_nat (length insns) <? total_instructions then
      match fuel with
      | O => raise OutOfFuel
      | S fuel' =>
        r <- near_forward_target pc i emulate emu ;;
        let '(target, emulate, emu) := r in
        insn <- one target ;;
        near_forward fuel' pc total_instructions insn
          (match insn with Some j => insns ++ [j] | None => insns end)
          emulate emu
      end
    else ret insns
  end.

Definition near (addr : Z) (instructions : Z) (emulate : bool)
  : M (list Instruction) :=
  current <- one (Some addr) ;;
  let pc := regs_pc env in
  match current with
  | None => ret []
  | Some current =>
    if negb (memory_peek env addr) then ret []
    else
      (* Try to go backward by seeing which instructions we've returned
         before, which were followed by this one. *)
      let insns := [] in
      cached <- backward_cache_getitem (address current) ;;
      insn <- one_if_cached cached ;;
      insns <- near_backward (Z.to_nat instructions) instructions insn insns ;;
      let insns := rev insns in
      let insns := insns ++ [current] in
      (* Some architecture aren't emulated yet *)
      let emulate :=
        if negb (emu_module env)
           || negb (bool_decide (arch_current env ∈ arch_to_UC env))
        then false else emulate in
      (* If we hit the current instruction, we can do emulation going
         forward from there. *)
      emu <- (if (addr =? pc) && emulate then
                modify (log EvEmulator) ;;
                (* the first instruction is emulated twice; skip it here *)
                r <- emu_single_step (Emulator (emulator env)) ;;
                ret (Some (snd r))
              else ret None) ;;
      (* Now find all of the instructions moving forward. *)
      let insn := Some current in
      let total_instructions := 1 + 2 * instructions in
      near_forward (Z.to_nat total_instructions) pc total_instructions
        insn insns emulate emu
  end.

End Disasm.

(** ** Concrete debuggees *)

(** An emulator that replays a fixed list of answers, then answers
    [(None, None)]. *)
Definition scripted_emulator (script : list (option Z * option Z))
  : EmulatorClass :=
  {| emu_state := list (option Z * option Z);
     Emulator := script;
     single_step := fun s =>
       match s with
       | r :: s' => (r, s')
       | [] => ((None, None), [])
       end |}.

(** A debuggee whose memory holds exactly the instructions of [code], keyed
    by address, with the live program counter at [pc].  Memory is readable
    exactly at the addresses of [code]; its capstone accepts every
    architecture and mode. *)
Definition debuggee (arch : string) (code : gmap Z Instruction) (pc : Z)
    (emu : option (list (option Z * option Z))) : Env :=
  {| arch_current := arch;
     arch_ptrsize := 4;
     arch_endian := "little";
     regs_cpsr := 0;
     regs_pc := pc;
     memory_peek := fun a => bool_decide (is_Some (code !! a));
     memory_read := fun a n =>
       match code !! a with
       | Some _ => replicate (Z.to_nat n) Byte.x00
       | None => []
       end;
     Cs_accepts := fun _ _ => true;
     cs_disasm := fun _ data a =>
       match data, code !! a with
       | _ :: _, Some i => [mkCsInsn a (size i) (groups i)]
       | _, _ => []
       end;
     enhance := fun ins =>
       match code !! cs_address ins with
       | Some i => (next i, target i)
       | None => (cs_address ins + cs_size ins, None)
       end;
     emu_module := bool_decide (is_Some emu);
     arch_to_UC := [arch];
     emulator := scripted_emulator (default [] emu) |}.

Definition empty_state : State := mkState ∅ ∅ [].

(** The stream of the concrete scenario: 3-byte instructions at 100 (not a
    branch), 103 (a direct jump to 200) and 200 (not a branch), each with
    [next = address + size]. *)
Definition i100 : Instruction := mkInstruction 100 3 [] (100 + 3) None.
Definition i103 : Instruction :=
  mkInstruction 103 3 [CS_GRP_JUMP] (103 + 3) (Some 200).
Definition i200 : Instruction := mkInstruction 200 3 [] (200 + 3) None.

Definition scenario_code : gmap Z Instruction :=
  list_to_map [ (100, i100); (103, i103); (200, i200) ].

Definition scenario (pc : Z) : Env :=
  debuggee "powerpc" scenario_code pc None.

(** The state in which 100 was recorded as the predecessor of 103. *)
Definition scenario_recorded : State :=
  mkState {[ 103 := Some 100 ]} ∅ [].

(** What a miss of the memoized resolver decodes at [addr] with the handle
    [md]: the first record of [md.disasm], enhanced. *)
Definition decoded (env : Env) (md : Cs) (addr : Z) : option Instruction :=
  let size := default 4 (VariableInstructionSizeMax !! arch_current env) in
  match cs_disasm env md (memory_read env addr size) addr with
  | ins :: _ =>
    Some (mkInstruction (cs_address ins) (cs_size ins) (cs_groups ins)
            (enhance env ins).1 (enhance env ins).2)
  | [] => None
  end.

(** The state after a miss of the memoized resolver at [addr]. *)
Definition missed (env : Env) (addr : Z) (value : option Instruction)
    (st : State) : State :=
  mkState (backward_cache st)
    (<[addr := value]> (get_one_instruction_cache st))
    (EvDisasm addr
       :: EvRead addr (default 4 (VariableInstructionSizeMax !! arch_current env))
       :: calls st).

(** The decoder's contract: the record decoded at an address carries that
    address. *)
Definition decoder_ok (env : Env) : Prop :=
  forall md data addr ins rest,
    cs_disasm env md data addr = ins :: rest -> cs_address ins = addr.

(** Every instruction of the memoization table is stored under its own
    address. *)
Definition cache_ok (st : State) : Prop :=
  forall addr i,
    get_one_instruction_cache st !! addr = Some (Some i) -> address i = addr.

(** [l] holds [a] immediately before [b]. *)
Definition adjacent {A : Type} (a b : A) (l : list A) : Prop :=
  exists l1 l2, l = l1 ++ a :: b :: l2.

(** Every two neighbours of [l] are related by [R]. *)
Fixpoint chain {A : Type} (R : A -> A -> Prop) (l : list A) : Prop :=
  match l with
  | a :: (b :: _) as l' => R a b /\ chain R l'
  | _ => True
  end.

(** From [st] to [st'] the emulator was not stepped: the calls made in
    between hold no [single_step]. *)
Definition emulator_untouched (st st' : State) : Prop :=
  exists evs, calls st' = evs ++ calls st /\ EvSingleStep ∉ evs.

(** After the call-class instruction [c], the window continues at the
    fall-through address of [c]. *)
Definition call_successor (c d : Instruction) : Prop :=
  is_call c = true ->
  address d = next c
  /\ (target c <> Some (next c) -> target c <> Some (address d)).

(** After the instruction [c], not of the call class, the window continues
    at the fall-through address of [c] if the static target of [c] differs
    from the live program counter, and at that target otherwise. *)
Definition static_successor (pc : Z) (c d : Instruction) : Prop :=
  is_call c = false ->
  (target c <> Some pc -> address d = next c)
  /\ (target c = Some pc -> address d = pc).

(** A debuggee stopped at a system call: 300 is a software interrupt, 302
    an indirect jump, 304 and 400 plain instructions; the emulator is
    available and would report 400 as the destination of the jump. *)
Definition i300 : Instruction := mkInstruction 300 2 [CS_GRP_INT] 302 None.
Definition i302 : Instruction := mkInstruction 302 2 [CS_GRP_JUMP] 304 None.
Definition i304 : Instruction := mkInstruction 304 2 [] 306 None.
Definition i400 : Instruction := mkInstruction 400 2 [] 402 None.

Definition syscall_code : gmap Z Instruction :=
  list_to_map [ (300, i300); (302, i302); (304, i304); (400, i400) ].

Definition syscall_script : list (option Z * option Z) :=
  [ (Some 302, Some 2); (Some 400, Some 2); (Some 402, Some 2) ].

Definition at_syscall : Env :=
  debuggee "i386" syscall_code 300 (Some syscall_script).

(** The same code stopped at the indirect jump 302. *)
Definition at_indirect_jump : Env :=
  debuggee "i386" syscall_code 302 (Some syscall_script).

(** [emu] is [None]. *)
Definition no_emulator {E : Type} (emu : option E) : bool :=
  match emu with
  | None => true
  | Some _ => false
  end.

(** What one round of the forward loop guarantees of the instruction it
    appends, with ([static]) or without the knowledge that no emulator
    object is in use. *)
Definition forward_successor (pc : Z) (static : bool) (c d : Instruction)
  : Prop :=
  call_successor c d /\ (static = true -> static_successor pc c d).

(** A debuggee whose live program counter is the destination of a call:
    500 calls 600, 505 follows the call. *)
Definition i500 : Instruction :=
  mkInstruction 500 5 [CS_GRP_CALL] 505 (Some 600).
Definition i505 : Instruction := mkInstruction 505 1 [] 506 None.
Definition i600 : Instruction := mkInstruction 600 1 [] 601 None.

Definition call_code : gmap Z Instruction :=
  list_to_map [ (500, i500); (505, i505); (600, i600) ].

Definition in_callee : Env := debuggee "x86-64" call_code 600 None.

(** A debuggee stopped at a direct jump: 700 jumps to 800, 702 follows the
    jump in memory. *)
Definition i700 : Instruction :=
  mkInstruction 700 2 [CS_GRP_JUMP] 702 (Some 800).
Definition i702 : Instruction := mkInstruction 702 1 [] 703 None.
Definition i800 : Instruction := mkInstruction 800 1 [] 801 None.

Definition jump_code : gmap Z Instruction :=
  list_to_map [ (700, i700); (702, i702); (800, i800) ].

Definition at_jump : Env := debuggee "x86-64" jump_code 700 None.

(** A sequence of calls of [one], with their results. *)
Fixpoint resolutions (env : Env) (xs : list (option Z)) (st : State)
  : list (Result (option Instruction)) * State :=
  match xs with
  | [] => ([], st)
  | x :: xs' =>
    let '(r, st1) := one env x st in
    let '(rs, st2) := resolutions env xs' st1 in
    (r :: rs, st2)
  end.

(** The resolution with result [r] does not replace the predecessor [a]
    recorded for the address [b]: an instruction it returns either falls
    through to another address or is at [a] itself. *)
Definition keeps_link (a b : Z) (r : Result (option Instruction)) : Prop :=
  forall x, r = Ok (Some x) -> next x = b -> address x = a.

(** A debuggee whose last instruction of a page, at 4095, falls through to
    4096 on the next page; and the same debuggee after it ran on and
    unmapped the first page. *)
Definition i4095 : Instruction := mkInstruction 4095 1 [] 4096 None.
Definition i4096 : Instruction := mkInstruction 4096 3 [] 4099 None.

Definition before_unmap : Env :=
  debuggee "i386" (list_to_map [ (4095, i4095); (4096, i4096) ]) 4095 None.

Definition after_unmap : Env :=
  debuggee "i386" (list_to_map [ (4096, i4096) ]) 4096 None.

(** A debuggee with code at address 0. *)
Definition i0 : Instruction := mkInstruction 0 4 [] 4 None.
Definition i4 : Instruction := mkInstruction 4 4 [] 8 None.

Definition low_memory : Env :=
  debuggee "arm" (list_to_map [ (0, i0); (4, i4) ]) 4 None.

(** The keys of [CapstoneArch] and of [CapstoneEndian]. *)
Definition architectures : list string :=
  ["arm"; "aarch64"; "i386"; "x86-64"; "powerpc"; "mips"; "sparc"]%string.

Definition endians : list string := ["little"; "big"]%string.

(** The number of bytes the resolver asks the debuggee for:
    [VariableInstructionSizeMax.get(pwndbg.arch.current, 4)]. *)
Definition read_size (env : Env) : Z :=
  default 4 (VariableInstructionSizeMax !! arch_current env).

(** A call that belongs to decoding: a memory read of [read_size] bytes or
    a call of the decoder. *)
Definition decoder_event (env : Env) (e : Event) : Prop :=
  match e with
  | EvRead _ n => n = read_size env
  | EvDisasm _ => True
  | EvEmulator | EvSingleStep => False
  end.

(** From [st] to [st'] only calls satisfying [P] were made. *)
Definition calls_extend (P : Event -> Prop) (st st' : State) : Prop :=
  exists evs, calls st' = evs ++ calls st /\ Forall P evs.

(** [l] is a linear sweep from [addr]: its first instruction is at [addr]
    and each further one is at the fall-through address of the one
    before. *)
Fixpoint sweep (addr : Z) (l : list Instruction) : Prop :=
  match l with
  | [] => True
  | i :: l' => address i = addr /\ sweep (next i) l'
  end.

(** The number of [single_step] calls in a log. *)
Fixpoint single_steps (l : list Event) : nat :=
  match l with
  | [] => O
  | EvSingleStep :: l' => S (single_steps l')
  | _ :: l' => single_steps l'
  end.

(** [a] falls through to [b] and is not at address 0. *)
Definition link (a b : Instruction) : Prop :=
  next a = address b /\ address a <> 0.

(** Every instruction of the memoization table is stored under its own
    address, and every predecessor recorded in [backward_cache] is the
    address of a memoized instruction that falls through to the key. *)
Definition consistent (st : State) : Prop :=
  cache_ok st
  /\ forall k a,
      backward_cache st !! k = Some (Some a) ->
      exists i, get_one_instruction_cache st !! a = Some (Some i)
                /\ next i = k.

(** The stream of the scenario in a debugger whose architecture has no
    entry in [CapstoneArch]. *)
Definition unsupported : Env := debuggee "riscv" scenario_code 100 None.

(** The instruction [i] is at a readable address. *)
Definition readable (env : Env) (i : Instruction) : Prop :=
  memory_peek env (address i) = true.

(** ** Reasoning about the monad *)

Lemma bind_inv {A B : Type} (c : M A) (k : A -> M B) st r st' :
  bind c k st = (r, st') ->
  (exists a st1, c st = (Ok a, st1) /\ k a st1 = (r, st'))
  \/ (exists e, c st = (Raise e, st') /\ r = Raise e).
Proof.
  unfold bind. destruct (c st) as [[a|e] st1]; intros H.
  - left. eauto.
  - right. inversion H; subst. eauto.
Qed.

Lemma bind_ok {A B : Type} (c : M A) (k : A -> M B) st a st1 :
  c st = (Ok a, st1) -> bind c k st = k a st1.
Proof. unfold bind. intros ->. reflexivity. Qed.

Lemma bind_raise {A B : Type} (c : M A) (k : A -> M B) st e st1 :
  c st = (Raise e, st1) -> bind c k st = (Raise e, st1).
Proof. unfold bind. intros ->. reflexivity. Qed.

(** ** The decoder session factory *)

Lemma CapstoneMode_lookup ptrsize :
  CapstoneMode !! ptrsize = None <-> ptrsize <> 4 /\ ptrsize <> 8.
Proof.
  unfold CapstoneMode. cbn [list_to_map foldr uncurry fst snd].
  split.
  - intros H. split; intros ->; vm_compute in H; discriminate.
  - intros [H4 H8].
    rewrite !lookup_insert_ne by congruence. apply lookup_empty.
Qed.

(** C9, as stated, fails: with [extra] given, [CapstoneMode[ptrsize]] is
    never evaluated, so a pointer width of 2 builds a handle (or, should the
    constructor reject the mode, raises [CsError]); and with an unknown
    architecture the failing subscript is [CapstoneArch[arch]], which is the
    unsupported-architecture error. *)
Lemma get_disassembler_cached_extra_skips_pointer_width :
  (2 <> 4 /\ 2 <> 8)
  /\ get_disassembler_cached (fun _ _ => true) "arm" 2 "little"
       (Some CS_MODE_THUMB)
     = Ok (mkCs CS_ARCH_ARM CS_MODE_THUMB true)
  /\ get_disassembler_cached (fun _ _ => false) "arm" 2 "little"
       (Some CS_MODE_THUMB)
     = Raise CsError
  /\ get_disassembler_cached (fun _ _ => true) "riscv" 2 "little" None
     = Raise UnsupportedArchitecture.
Proof. split; [lia|]. repeat split; vm_compute; reflexivity. Qed.

(** C9, amended: a call to the decoder session factory signals the
    unsupported-pointer-width error exactly when the architecture is a
    supported one, no [extra] mode is given and the pointer width is neither
    4 nor 8.  In particular no such error arises for a width of 4 or 8, nor
    for any width once [extra] is given. *)
Theorem get_disassembler_cached_pointer_width accepts arch ptrsize endian
    extra :
  get_disassembler_cached accepts arch ptrsize endian extra
    = Raise UnsupportedPointerWidth
  <-> is_Some (CapstoneArch !! arch) /\ extra = None
      /\ ptrsize <> 4 /\ ptrsize <> 8.
Proof.
  unfold get_disassembler_cached, subscript, UnsupportedPointerWidth.
  rewrite <- CapstoneMode_lookup.
  destruct (CapstoneArch !! arch) as [a|] eqn:Ha.
  - destruct extra as [m|].
    + destruct (CapstoneEndian !! endian); [destruct (accepts _ _)|];
        split; try discriminate; intros (_ & ? & _); discriminate.
    + destruct (CapstoneMode !! ptrsize) as [m|] eqn:Hm.
      * destruct (CapstoneEndian !! endian); [destruct (accepts _ _)|];
          split; try discriminate; intros (_ & _ & ?); discriminate.
      * split; [intros _; split; [eexists; reflexivity | split; reflexivity]
               | reflexivity].
  - split; [discriminate | intros ([? ?] & _); discriminate].
Qed.

Lemma get_disassembler_cached_pointer_width_witness :
  get_disassembler_cached (fun _ _ => true) "x86-64" 2 "little" None
    = Raise UnsupportedPointerWidth.
Proof.
  apply (get_disassembler_cached_pointer_width (fun _ _ => true)
           "x86-64" 2 "little" None).
  split; [vm_compute; eexists; reflexivity|].
  split; [reflexivity|]. split; lia.
Defined.

(** ** The memoized single-instruction resolver *)

Lemma get_one_instruction_func_eq env addr st :
  get_one_instruction_func env addr st =
  match get_disassembler env addr with
  | Ok md =>
    (Ok (decoded env md addr),
     log (EvDisasm addr)
       (log (EvRead addr
               (default 4 (VariableInstructionSizeMax !! arch_current env))) st))
  | Raise e => (Raise e, st)
  end.
Proof.
  unfold get_one_instruction_func, decoded, bind, lift, modify, ret.
  destruct (get_disassembler env addr) as [md|e]; [|reflexivity].
  destruct (cs_disasm env md _ addr) as [|ins rest]; [reflexivity|].
  destruct (enhance env ins); reflexivity.
Qed.

Lemma get_one_instruction_hit env addr st value :
  get_one_instruction_cache st !! addr = Some value ->
  get_one_instruction env addr st = (Ok value, st).
Proof.
  intros H. unfold get_one_instruction, reset_on_cont. rewrite H. reflexivity.
Qed.

Lemma get_one_instruction_miss env addr st :
  get_one_instruction_cache st !! addr = None ->
  get_one_instruction env addr st =
  match get_disassembler env addr with
  | Ok md => (Ok (decoded env md addr), missed env addr (decoded env md addr) st)
  | Raise e => (Raise e, st)
  end.
Proof.
  intros H. unfold get_one_instruction, reset_on_cont. rewrite H.
  unfold bind. rewrite get_one_instruction_func_eq.
  destruct (get_disassembler env addr); reflexivity.
Qed.

(** The three outcomes of the memoized resolver. *)
Lemma get_one_instruction_cases env addr st r st' :
  get_one_instruction env addr st = (r, st') ->
  (exists value,
      get_one_instruction_cache st !! addr = Some value
      /\ r = Ok value /\ st' = st)
  \/ (exists md,
      get_one_instruction_cache st !! addr = None
      /\ get_disassembler env addr = Ok md
      /\ r = Ok (decoded env md addr)
      /\ st' = missed env addr (decoded env md addr) st)
  \/ (exists e,
      get_one_instruction_cache st !! addr = None
      /\ get_disassembler env addr = Raise e
      /\ r = Raise e /\ st' = st).
Proof.
  destruct (get_one_instruction_cache st !! addr) as [value|] eqn:Hc.
  - rewrite (get_one_instruction_hit _ _ _ _ Hc). intros [= <- <-].
    left. eauto.
  - rewrite (get_one_instruction_miss _ _ _ Hc).
    destruct (get_disassembler env addr) as [md|e]; intros [= <- <-].
    + right; left. eauto 10.
    + right; right. eauto 10.
Qed.

(** A result of the memoized resolver is in the table afterwards. *)
Lemma get_one_instruction_stored env addr st value st1 :
  get_one_instruction env addr st = (Ok value, st1) ->
  get_one_instruction_cache st1 !! addr = Some value.
Proof.
  intros H.
  destruct (get_one_instruction_cases _ _ _ _ _ H)
    as [(v & Hc & [= ->] & ->) | [(md & Hc & Hmd & [= ->] & ->)
                                 | (e & _ & _ & [=] & _)]].
  - exact Hc.
  - unfold missed. cbn. apply lookup_insert_eq.
Qed.

(** C8: within one execution generation (no [cont] in between) and with
    the debuggee unchanged (the same [env]), a second call of the
    single-instruction resolver on the same address returns the identical
    result as the first and leaves the whole state as it was: the
    memoization table answers, and the log of memory reads and decoder calls
    gains no entry. *)
Theorem get_one_instruction_memoized env addr st value st1 :
  get_one_instruction env addr st = (Ok value, st1) ->
  get_one_instruction env addr st1 = (Ok value, st1).
Proof.
  intros H. apply get_one_instruction_hit.
  eapply get_one_instruction_stored, H.
Qed.

Lemma get_one_instruction_memoized_witness :
  get_one_instruction (scenario 103) 103
    (missed (scenario 103) 103 (Some i103) empty_state)
  = (Ok (Some i103), missed (scenario 103) 103 (Some i103) empty_state).
Proof.
  apply (get_one_instruction_memoized (scenario 103) 103 empty_state).
  vm_compute. reflexivity.
Defined.

(** The memoized resolver leaves [backward_cache] alone. *)
Lemma get_one_instruction_backward_cache env addr st :
  backward_cache (get_one_instruction env addr st).2 = backward_cache st.
Proof.
  destruct (get_one_instruction env addr st) as [r st'] eqn:H.
  destruct (get_one_instruction_cases _ _ _ _ _ H)
    as [(v & _ & _ & ->) | [(md & _ & _ & _ & ->) | (e & _ & _ & _ & ->)]];
    reflexivity.
Qed.

(** ** The single-forward-step helper *)

Lemma one_eq env x st :
  one env x st =
  let addr := default (regs_pc env) x in
  if memory_peek env addr then
    match get_one_instruction env addr st with
    | (Ok (Some insn), st1) =>
      (Ok (Some insn),
       set_backward_cache <[next insn := Some (address insn)]> st1)
    | (Ok None, st1) => (Ok None, st1)
    | (Raise e, st1) => (Raise e, st1)
    end
  else (Ok None, st).
Proof.
  unfold one, get. cbn zeta.
  replace (match x with Some a => a | None => regs_pc env end)
    with (default (regs_pc env) x) by (destruct x; reflexivity).
  destruct (memory_peek env (default (regs_pc env) x)); [|reflexivity].
  cbn [negb]. change (Z.to_nat 1) with 1%nat. cbn [get_loop].
  unfold bind.
  destruct (get_one_instruction env _ st) as [[[insn|]|e] st1]; reflexivity.
Qed.

Lemma one_unreadable env x st :
  memory_peek env (default (regs_pc env) x) = false ->
  one env x st = (Ok None, st).
Proof. intros H. rewrite one_eq. cbn zeta. rewrite H. reflexivity. Qed.

(** The outcomes of [one]. *)
Lemma one_cases env x st r st' :
  one env x st = (r, st') ->
  let addr := default (regs_pc env) x in
  (memory_peek env addr = false /\ r = Ok None /\ st' = st)
  \/ (memory_peek env addr = true
      /\ get_one_instruction env addr st = (Ok None, st') /\ r = Ok None)
  \/ (exists insn st1,
      memory_peek env addr = true
      /\ get_one_instruction env addr st = (Ok (Some insn), st1)
      /\ r = Ok (Some insn)
      /\ st' = set_backward_cache <[next insn := Some (address insn)]> st1)
  \/ (exists e,
      memory_peek env addr = true
      /\ get_one_instruction env addr st = (Raise e, st') /\ r = Raise e).
Proof.
  rewrite one_eq. cbn zeta.
  destruct (memory_peek env (default (regs_pc env) x)).
  - destruct (get_one_instruction env _ st) as [[[insn|]|e] st1];
      intros [= <- <-].
    + right; right; left. eauto 10.
    + right; left. eauto.
    + right; right; right. eauto.
  - intros [= <- <-]. left. eauto.
Qed.

Lemma one_backward_cache env x st insn st' :
  one env x st = (Ok (Some insn), st') ->
  backward_cache st'
  = <[next insn := Some (address insn)]> (backward_cache st).
Proof.
  intros H. destruct (one_cases _ _ _ _ _ H)
    as [(_ & [=] & _) | [(_ & _ & [=])
       | [(i & st1 & _ & Hg & [= <-] & ->) | (e & _ & _ & [=])]]].
  cbn. f_equal.
  rewrite <- (get_one_instruction_backward_cache env (default (regs_pc env) x) st).
  rewrite Hg. reflexivity.
Qed.

(** C10: every call of [one] that returns an instruction X stores X's
    address under X's fall-through address in [backward_cache], whatever the
    state the call started from (so also when nothing was ever decoded at
    the fall-through address); the same holds for the calls the backward
    pass of [near] makes through [one(cached) if cached else None]; and the
    memoized resolver [get_one_instruction] leaves [backward_cache]
    unchanged. *)
Theorem one_writes_backward_cache env :
  (forall x st insn st',
      one env x st = (Ok (Some insn), st') ->
      backward_cache st'
      = <[next insn := Some (address insn)]> (backward_cache st))
  /\ (forall cached st insn st',
      one_if_cached env cached st = (Ok (Some insn), st') ->
      backward_cache st'
      = <[next insn := Some (address insn)]> (backward_cache st))
  /\ (forall addr st,
      backward_cache (get_one_instruction env addr st).2 = backward_cache st).
Proof.
  split; [|split].
  - apply one_backward_cache.
  - intros cached st insn st'. unfold one_if_cached.
    destruct (truthy cached); [apply one_backward_cache | discriminate].
  - apply get_one_instruction_backward_cache.
Qed.

(** At 200 nothing follows: address 203 is unreadable and was never
    decoded, and the entry for 203 is written all the same. *)
Lemma one_writes_backward_cache_witness :
  memory_peek (scenario 103) 203 = false
  /\ get_one_instruction_cache empty_state !! 203 = None
  /\ backward_cache (one (scenario 103) (Some 200) empty_state).2
     = <[next i200 := Some (address i200)]> (backward_cache empty_state).
Proof.
  split; [reflexivity|]. split; [reflexivity|].
  apply (proj1 (one_writes_backward_cache (scenario 103)) (Some 200)).
  vm_compute. reflexivity.
Defined.

(** ** The window resolver: an anchor that does not resolve *)

(** C7: if the anchor address is not readable, or the single-instruction
    resolver finds no instruction there, [near] returns the empty list (it
    does not raise), for every count and either emulate flag. *)
Theorem near_unresolved_anchor env addr instructions emulate st :
  memory_peek env addr = false
  \/ (get_one_instruction env addr st).1 = Ok None ->
  (near env addr instructions emulate st).1 = Ok [].
Proof.
  intros H. unfold near, bind. rewrite one_eq.
  cbn [default from_option id]. cbn zeta.
  destruct (memory_peek env addr) eqn:Hp.
  - destruct H as [H|H]; [discriminate|].
    destruct (get_one_instruction env addr st) as [r st1].
    cbn in H. subst r. reflexivity.
  - reflexivity.
Qed.

Lemma near_unresolved_anchor_witness :
  (near (scenario 103) 106 2 true scenario_recorded).1 = Ok [].
Proof.
  apply (near_unresolved_anchor (scenario 103) 106 2 true scenario_recorded).
  left. reflexivity.
Defined.

(** ** Exceptions are configuration errors *)

Lemma subscript_raise {K V : Type} `{Countable K} t (d : gmap K V) k e :
  subscript t d k = Raise e -> e = KeyError t.
Proof. unfold subscript. destruct (d !! k); congruence. Qed.

Lemma get_disassembler_cached_raise accepts arch ptrsize endian extra e :
  get_disassembler_cached accepts arch ptrsize endian extra = Raise e ->
  configuration_error e.
Proof.
  unfold get_disassembler_cached.
  destruct (subscript TCapstoneArch CapstoneArch arch) eqn:Ha.
  - destruct (match extra with
              | Some extra0 => Ok extra0
              | None => subscript TCapstoneMode CapstoneMode ptrsize
              end) eqn:Hm.
    + destruct (subscript TCapstoneEndian CapstoneEndian endian) eqn:He.
      * destruct (accepts _ _); [discriminate|]. intros [= <-]. exact I.
      * intros [= <-]. apply subscript_raise in He. subst. exact I.
    + intros [= <-]. destruct extra; [discriminate|].
      apply subscript_raise in Hm. subst. exact I.
  - intros [= <-]. apply subscript_raise in Ha. subst. exact I.
Qed.

Lemma get_disassembler_raise env pc e :
  get_disassembler env pc = Raise e -> configuration_error e.
Proof.
  unfold get_disassembler.
  destruct (bool_decide _).
  - destruct (subscript TThumbMode ThumbMode _) eqn:Ht.
    + apply get_disassembler_cached_raise.
    + intros [= <-]. apply subscript_raise in Ht. subst. exact I.
  - apply get_disassembler_cached_raise.
Qed.

(** The handle does not depend on the address it is asked for. *)
Lemma get_disassembler_pc env pc pc' :
  get_disassembler env pc = get_disassembler env pc'.
Proof. reflexivity. Qed.

Lemma get_one_instruction_raise env addr st e st' :
  get_one_instruction env addr st = (Raise e, st') ->
  configuration_error e /\ get_disassembler env addr = Raise e.
Proof.
  intros H. destruct (get_one_instruction_cases _ _ _ _ _ H)
    as [(v & _ & [=] & _) | [(md & _ & _ & [=] & _)
                            | (e' & _ & Hd & [= <-] & _)]].
  split; [eapply get_disassembler_raise|]; eassumption.
Qed.

Lemma one_raise env x st e st' :
  one env x st = (Raise e, st') ->
  configuration_error e /\ get_disassembler env 0 = Raise e.
Proof.
  intros H. destruct (one_cases _ _ _ _ _ H)
    as [(_ & [=] & _) | [(_ & _ & [=])
       | [(i & st1 & _ & _ & [=] & _) | (e' & _ & Hg & [= <-])]]].
  exact (get_one_instruction_raise _ _ _ _ _ Hg).
Qed.

Lemma one_if_cached_raise env cached st e st' :
  one_if_cached env cached st = (Raise e, st') ->
  configuration_error e /\ get_disassembler env 0 = Raise e.
Proof.
  unfold one_if_cached. destruct (truthy cached); [apply one_raise|].
  discriminate.
Qed.

Lemma backward_cache_getitem_ok k st :
  exists cached st1, backward_cache_getitem k st = (Ok cached, st1).
Proof.
  unfold backward_cache_getitem. destruct (backward_cache st !! k); eauto.
Qed.

(** ** The loops of the window resolver, one round at a time *)

Lemma near_backward_inv env fuel instructions i insns st r st' :
  near_backward env fuel instructions (Some i) insns st = (r, st') ->
  Z.of_nat (length insns) < instructions ->
  (fuel = O /\ r = Raise OutOfFuel /\ st' = st)
  \/ exists fuel' cached st1,
      fuel = S fuel'
      /\ backward_cache_getitem (address i) st = (Ok cached, st1)
      /\ ((exists e, one_if_cached env cached st1 = (Raise e, st')
                     /\ r = Raise e)
          \/ (exists insn' st2,
                 one_if_cached env cached st1 = (Ok insn', st2)
                 /\ near_backward env fuel' instructions insn'
                      (insns ++ [i]) st2 = (r, st'))).
Proof.
  intros H Hlt. apply Z.ltb_lt in Hlt.
  destruct fuel as [|fuel']; cbn [near_backward] in H; rewrite Hlt in H.
  - left. inversion H. auto.
  - right. exists fuel'.
    apply bind_inv in H as [(cached & st1 & Hc & H) | (e & Hc & _)].
    + exists cached, st1. split; [reflexivity|]. split; [exact Hc|].
      apply bind_inv in H as [(insn' & st2 & Ho & H) | (e & Ho & ->)].
      * right. eauto.
      * left. eauto.
    + destruct (backward_cache_getitem_ok (address i) st) as (c & s & Hk).
      congruence.
Qed.

Lemma near_backward_stop env fuel instructions insn insns st :
  insn = None \/ instructions <= Z.of_nat (length insns) ->
  near_backward env fuel instructions insn insns st = (Ok insns, st).
Proof.
  intros [-> | Hge]; [destruct fuel; reflexivity|].
  apply Z.ltb_ge in Hge.
  destruct insn, fuel; cbn [near_backward]; rewrite ?Hge; reflexivity.
Qed.

Lemma near_forward_target_cases env pc i emulate emu st r st1 :
  near_forward_target env pc i emulate emu st = (r, st1) ->
  let off := emulate && do_not_emulate i in
  let emulate1 := if off then false else emulate in
  let emu1 := if off then None else emu in
  (is_call i = true
   /\ r = Ok (Some (next i), emulate1, emu1) /\ st1 = st)
  \/ (is_call i = false /\ emu1 = None
      /\ r = Ok (if bool_decide (target i = Some pc)
                 then target i else Some (next i), emulate1, None)
      /\ st1 = st)
  \/ (is_call i = false
      /\ exists e tgt e',
          emu1 = Some e /\ r = Ok (tgt, emulate1, Some e')
          /\ st1 = log EvSingleStep st).
Proof.
  unfold near_forward_target. cbn zeta.
  destruct (emulate && do_not_emulate i) eqn:Hoff;
    destruct (is_call i) eqn:Hcall.
  - intros [= <- <-]. left. auto.
  - destruct (bool_decide (target i = Some pc)); cbn [negb];
      intros [= <- <-]; right; left; auto.
  - intros [= <- <-]. left. auto.
  - destruct emu as [e|].
    + unfold bind, emu_single_step, modify, ret. cbn.
      destruct (single_step (emulator env) e) as [[tc sc] e'].
      destruct tc, sc; intros [= <- <-]; right; right;
        (split; [reflexivity|]); eauto 10.
    + destruct (bool_decide (target i = Some pc)); cbn [negb];
        intros [= <- <-]; right; left; auto.
Qed.

Lemma near_forward_inv env fuel pc total i insns emulate emu st r st' :
  near_forward env fuel pc total (Some i) insns emulate emu st = (r, st') ->
  Z.of_nat (length insns) < total ->
  (fuel = O /\ r = Raise OutOfFuel /\ st' = st)
  \/ exists fuel' tgt emulate' emu' st1,
      fuel = S fuel'
      /\ near_forward_target env pc i emulate emu st
         = (Ok (tgt, emulate', emu'), st1)
      /\ ((exists e, one env tgt st1 = (Raise e, st') /\ r = Raise e)
          \/ (one env tgt st1 = (Ok None, st') /\ r = Ok insns)
          \/ (exists j st2,
                 one env tgt st1 = (Ok (Some j), st2)
                 /\ near_forward env fuel' pc total (Some j) (insns ++ [j])
                      emulate' emu' st2 = (r, st'))).
Proof.
  intros H Hlt. apply Z.ltb_lt in Hlt.
  destruct fuel as [|fuel']; cbn [near_forward] in H; rewrite Hlt in H.
  - left. inversion H. auto.
  - right. exists fuel'.
    apply bind_inv in H as [([[tgt emulate'] emu'] & st1 & Ht & H)
                           | (e & Ht & _)].
    + exists tgt, emulate', emu', st1. split; [reflexivity|].
      split; [exact Ht|].
      apply bind_inv in H as [(insn' & st2 & Ho & H) | (e & Ho & ->)].
      * destruct insn' as [j|].
        -- right; right. eauto.
        -- right; left. destruct fuel'; inversion H; subst; auto.
      * left. eauto.
    + destruct (near_forward_target_cases _ _ _ _ _ _ _ _ Ht)
        as [(_ & [=] & _) | [(_ & _ & [=] & _)
                            | (_ & e0 & t0 & e1 & _ & [=] & _)]].
Qed.

Lemma near_forward_stop env fuel pc total insn insns emulate emu st :
  insn = None \/ total <= Z.of_nat (length insns) ->
  near_forward env fuel pc total insn insns emulate emu st = (Ok insns, st).
Proof.
  intros [-> | Hge]; [destruct fuel; reflexivity|].
  apply Z.ltb_ge in Hge.
  destruct insn, fuel; cbn [near_forward]; rewrite ?Hge; reflexivity.
Qed.

(** ** The stages of the window resolver *)

Lemma one_some_readable env x st insn st' :
  one env x st = (Ok (Some insn), st') ->
  memory_peek env (default (regs_pc env) x) = true.
Proof.
  intros H. destruct (one_cases _ _ _ _ _ H)
    as [(_ & [=] & _) | [(_ & _ & [=])
       | [(i & st1 & Hp & _) | (e & _ & _ & [=])]]].
  exact Hp.
Qed.

Lemma near_stages env addr instructions emulate st r st' :
  near env addr instructions emulate st = (r, st') ->
  (exists e, one env (Some addr) st = (Raise e, st') /\ r = Raise e)
  \/ (one env (Some addr) st = (Ok None, st') /\ r = Ok [])
  \/ exists current st1 cached st2,
      one env (Some addr) st = (Ok (Some current), st1)
      /\ backward_cache_getitem (address current) st1 = (Ok cached, st2)
      /\ ((exists e, one_if_cached env cached st2 = (Raise e, st')
                     /\ r = Raise e)
          \/ exists insn st3,
              one_if_cached env cached st2 = (Ok insn, st3)
              /\ ((exists e,
                      near_backward env (Z.to_nat instructions) instructions
                        insn [] st3 = (Raise e, st')
                      /\ r = Raise e)
                  \/ exists before st4 emulate' emu st5,
                      near_backward env (Z.to_nat instructions) instructions
                        insn [] st3 = (Ok before, st4)
                      /\ (st5 = st4
                          \/ st5 = log EvSingleStep (log EvEmulator st4))
                      /\ near_forward env
                           (Z.to_nat (1 + 2 * instructions)) (regs_pc env)
                           (1 + 2 * instructions) (Some current)
                           (rev before ++ [current]) emulate' emu st5
                         = (r, st'))).
Proof.
  unfold near. intros H.
  apply bind_inv in H as [(current & st1 & Ho & H) | (e & Ho & ->)];
    [|left; eauto].
  destruct current as [current|];
    [|inversion H; subst; right; left; auto].
  right; right.
  pose proof (one_some_readable _ _ _ _ _ Ho) as Hp. cbn in Hp.
  rewrite Hp in H. cbn [negb] in H.
  apply bind_inv in H as [(cached & st2 & Hc & H) | (e & Hc & _)];
    [|destruct (backward_cache_getitem_ok (address current) st1)
        as (c & s & Hk); congruence].
  exists current, st1, cached, st2. split; [exact Ho|]. split; [exact Hc|].
  apply bind_inv in H as [(insn & st3 & Hi & H) | (e & Hi & ->)];
    [|left; eauto].
  right. exists insn, st3. split; [exact Hi|].
  apply bind_inv in H as [(before & st4 & Hb & H) | (e & Hb & ->)];
    [|left; eauto].
  right.
  apply bind_inv in H as [(emu & st5 & He & H) | (e & He & _)].
  - exists before, st4. eexists. exists emu, st5. split; [exact Hb|].
    split; [|exact H].
    match type of He with (if ?b then _ else _) _ = _ => destruct b end.
    + right. unfold bind, modify, emu_single_step, ret in He.
      inversion He. reflexivity.
    + left. inversion He. reflexivity.
  - match type of He with (if ?b then _ else _) _ = _ => destruct b end;
      unfold bind, modify, emu_single_step, ret in He; inversion He.
Qed.

(** ** The length of the window *)

Lemma near_backward_length env fuel instructions insn insns st r st' :
  near_backward env fuel instructions insn insns st = (r, st') ->
  (Z.to_nat (instructions - Z.of_nat (length insns)) <= fuel)%nat ->
  match r with
  | Ok l =>
    (exists more, l = insns ++ more)
    /\ Z.of_nat (length l) <= Z.max (Z.of_nat (length insns)) instructions
  | Raise e => configuration_error e /\ get_disassembler env 0 = Raise e
  end.
Proof.
  revert insn insns st.
  induction fuel as [|fuel IH]; intros insn insns st H Hfuel.
  all: destruct insn as [i|];
    [|rewrite near_backward_stop in H by auto; inversion H; subst;
      split; [exists []; rewrite app_nil_r; reflexivity | lia]].
  all: destruct (Z_lt_le_dec (Z.of_nat (length insns)) instructions)
      as [Hlt|Hge];
    [|rewrite near_backward_stop in H by auto; inversion H; subst;
      split; [exists []; rewrite app_nil_r; reflexivity | lia]].
  all: destruct (near_backward_inv _ _ _ _ _ _ _ _ H Hlt)
      as [(Hf & _) | (fuel' & cached & st1 & Hf & _ & Hrest)]; try lia.
  injection Hf as <-.
  destruct Hrest as [(e & Ho & ->) | (insn' & st2 & _ & Hrec)].
  - exact (one_if_cached_raise _ _ _ _ _ Ho).
  - apply IH in Hrec; [|rewrite length_app; cbn [length]; lia].
    destruct r as [l|e]; [|exact Hrec].
    destruct Hrec as [[more ->] Hlen].
    split; [exists (i :: more); rewrite <- app_assoc; reflexivity|].
    revert Hlen. rewrite !length_app. cbn [length]. lia.
Qed.

Lemma near_forward_length env fuel pc total insn insns emulate emu st r st' :
  near_forward env fuel pc total insn insns emulate emu st = (r, st') ->
  (Z.to_nat (total - Z.of_nat (length insns)) <= fuel)%nat ->
  match r with
  | Ok l =>
    (exists more, l = insns ++ more)
    /\ Z.of_nat (length l) <= Z.max (Z.of_nat (length insns)) total
  | Raise e => configuration_error e /\ get_disassembler env 0 = Raise e
  end.
Proof.
  revert insn insns emulate emu st.
  induction fuel as [|fuel IH]; intros insn insns emulate emu st H Hfuel.
  all: destruct insn as [i|];
    [|rewrite near_forward_stop in H by auto; inversion H; subst;
      split; [exists []; rewrite app_nil_r; reflexivity | lia]].
  all: destruct (Z_lt_le_dec (Z.of_nat (length insns)) total) as [Hlt|Hge];
    [|rewrite near_forward_stop in H by auto; inversion H; subst;
      split; [exists []; rewrite app_nil_r; reflexivity | lia]].
  all: destruct (near_forward_inv _ _ _ _ _ _ _ _ _ _ _ H Hlt)
      as [(Hf & _) | (fuel' & tgt & em' & emu' & st1 & Hf & _ & Hrest)];
    try lia.
  injection Hf as <-.
  destruct Hrest as [(e & Ho & ->) | [(_ & ->) | (j & st2 & _ & Hrec)]].
  - exact (one_raise _ _ _ _ _ Ho).
  - split; [exists []; rewrite app_nil_r; reflexivity | lia].
  - apply IH in Hrec; [|rewrite length_app; cbn [length]; lia].
    destruct r as [l|e]; [|exact Hrec].
    destruct Hrec as [[more ->] Hlen].
    split; [exists (j :: more); rewrite <- app_assoc; reflexivity|].
    revert Hlen. rewrite !length_app. cbn [length]. lia.
Qed.

Lemma near_result env addr instructions emulate st r st' :
  near env addr instructions emulate st = (r, st') ->
  match r with
  | Ok l =>
    l = []
    \/ exists before current after,
        l = before ++ current :: after
        /\ (one env (Some addr) st).1 = Ok (Some current)
        /\ Z.of_nat (length before) <= Z.max 0 instructions
        /\ Z.of_nat (length l)
           <= Z.max (Z.of_nat (length before) + 1) (1 + 2 * instructions)
  | Raise e => configuration_error e /\ get_disassembler env 0 = Raise e
  end.
Proof.
  intros H.
  destruct (near_stages _ _ _ _ _ _ _ H)
    as [(e & Ho & ->) | [(_ & ->)
       | (current & st1 & cached & st2 & Ho & _ & Hrest)]].
  - exact (one_raise _ _ _ _ _ Ho).
  - left. reflexivity.
  - destruct Hrest as [(e & Hi & ->) | (insn & st3 & _ & Hrest)].
    { exact (one_if_cached_raise _ _ _ _ _ Hi). }
    destruct Hrest
      as [(e & Hb & ->)
         | (before & st4 & em' & emu & st5 & Hb & _ & Hf)].
    { apply near_backward_length in Hb; [exact Hb | cbn [length]; lia]. }
    apply near_backward_length in Hb as [_ Hlb]; [|cbn [length]; lia].
    cbn [length] in Hlb.
    apply near_forward_length in Hf; [|lia].
    destruct r as [l|e]; [|exact Hf].
    destruct Hf as [[more ->] Hlen]. right.
    exists (rev before), current, more.
    rewrite <- app_assoc. split; [reflexivity|].
    rewrite Ho. split; [reflexivity|].
    rewrite length_rev. split; [exact Hlb|].
    revert Hlen. rewrite <- app_assoc. cbn [app].
    rewrite !length_app. cbn [length]. rewrite !length_rev. lia.
Qed.

(** The loops of [near] are given enough rounds: [near] returns a list or
    raises a configuration error, for every input. *)
Lemma near_never_out_of_fuel env addr instructions emulate st :
  (near env addr instructions emulate st).1 <> Raise OutOfFuel.
Proof.
  destruct (near env addr instructions emulate st) as [r st'] eqn:H.
  apply near_result in H. cbn. intros ->. destruct H as [[] _].
Qed.

(** Once the decoder session can be built, [near] returns a list. *)
Lemma near_returns env addr instructions emulate st md :
  get_disassembler env 0 = Ok md ->
  exists l st', near env addr instructions emulate st = (Ok l, st').
Proof.
  intros Hmd.
  destruct (near env addr instructions emulate st) as [[l|e] st'] eqn:H;
    [eauto|].
  apply near_result in H as [_ He]. congruence.
Qed.

(** C1: for every anchor address, every count >= 0 and either emulate
    flag, [near] returns a list of at most [2*count + 1] instructions, of
    which at most [count] stand before the anchor instruction; the only
    other outcome is the exception ([KeyError] or [CsError]) of a decoder
    session that cannot be built, in which case nothing is returned. *)
Theorem near_length env addr instructions emulate st :
  0 <= instructions ->
  (exists l st',
      near env addr instructions emulate st = (Ok l, st')
      /\ Z.of_nat (length l) <= 2 * instructions + 1
      /\ (l = []
          \/ exists before current after,
              l = before ++ current :: after
              /\ (one env (Some addr) st).1 = Ok (Some current)
              /\ Z.of_nat (length before) <= instructions))
  \/ (exists e st',
      near env addr instructions emulate st = (Raise e, st')
      /\ configuration_error e
      /\ get_disassembler env 0 = Raise e).
Proof.
  intros Hn.
  destruct (near env addr instructions emulate st) as [r st'] eqn:H.
  apply near_result in H. destruct r as [l|e].
  - left. exists l, st'. split; [reflexivity|].
    destruct H as [-> | (before & current & after & -> & Hc & Hb & Hl)].
    + split; [cbn [length]; lia | left; reflexivity].
    + split; [lia|]. right. exists before, current, after.
      split; [reflexivity|]. split; [exact Hc | lia].
  - right. destruct H as [He Hd]. eauto.
Qed.

Lemma near_length_witness :
  (exists l st',
      near (scenario 200) 103 1 false scenario_recorded = (Ok l, st')
      /\ Z.of_nat (length l) <= 2 * 1 + 1
      /\ (l = []
          \/ exists before current after,
              l = before ++ current :: after
              /\ (one (scenario 200) (Some 103) scenario_recorded).1
                 = Ok (Some current)
              /\ Z.of_nat (length before) <= 1))
  \/ (exists e st',
      near (scenario 200) 103 1 false scenario_recorded = (Raise e, st')
      /\ configuration_error e
      /\ get_disassembler (scenario 200) 0 = Raise e).
Proof.
  apply (near_length (scenario 200) 103 1 false scenario_recorded). lia.
Defined.

(** ** Emulation is shut off by an unsafe instruction *)

Lemma emulator_untouched_refl st : emulator_untouched st st.
Proof. exists []. split; [reflexivity | apply not_elem_of_nil]. Qed.

Lemma emulator_untouched_trans st1 st2 st3 :
  emulator_untouched st1 st2 -> emulator_untouched st2 st3 ->
  emulator_untouched st1 st3.
Proof.
  intros (e1 & H1 & N1) (e2 & H2 & N2). exists (e2 ++ e1).
  split; [rewrite H2, H1, app_assoc; reflexivity|].
  rewrite elem_of_app. tauto.
Qed.

Lemma get_one_instruction_emulator_untouched env addr st r st' :
  get_one_instruction env addr st = (r, st') -> emulator_untouched st st'.
Proof.
  intros H. destruct (get_one_instruction_cases _ _ _ _ _ H)
    as [(v & _ & _ & ->) | [(md & _ & _ & _ & ->) | (e & _ & _ & _ & ->)]];
    try apply emulator_untouched_refl.
  eexists [_; _]. split; [reflexivity|].
  rewrite !elem_of_cons, elem_of_nil. intros [[=] | [[=] | []]].
Qed.

Lemma one_emulator_untouched env x st r st' :
  one env x st = (r, st') -> emulator_untouched st st'.
Proof.
  intros H. destruct (one_cases _ _ _ _ _ H)
    as [(_ & _ & ->) | [(_ & Hg & _)
       | [(i & st1 & _ & Hg & _ & ->) | (e & _ & Hg & _)]]].
  - apply emulator_untouched_refl.
  - eapply get_one_instruction_emulator_untouched, Hg.
  - apply get_one_instruction_emulator_untouched in Hg. exact Hg.
  - eapply get_one_instruction_emulator_untouched, Hg.
Qed.

(** Without an emulator object the forward loop never steps one. *)
Lemma near_forward_emulator_untouched env fuel pc total insn insns emulate
    st r st' :
  near_forward env fuel pc total insn insns emulate None st = (r, st') ->
  emulator_untouched st st'.
Proof.
  revert insn insns emulate st.
  induction fuel as [|fuel IH]; intros insn insns emulate st H.
  all: destruct insn as [i|];
    [|rewrite near_forward_stop in H by auto; inversion H;
      apply emulator_untouched_refl].
  all: destruct (Z_lt_le_dec (Z.of_nat (length insns)) total) as [Hlt|Hge];
    [|rewrite near_forward_stop in H by auto; inversion H;
      apply emulator_untouched_refl].
  all: destruct (near_forward_inv _ _ _ _ _ _ _ _ _ _ _ H Hlt)
      as [(Hf & _ & ->) | (fuel' & tgt & em' & emu' & st1 & Hf & Ht & Hrest)];
    try apply emulator_untouched_refl; try discriminate.
  injection Hf as <-.
  assert (emu' = None /\ st1 = st) as [-> ->].
  { destruct (near_forward_target_cases _ _ _ _ _ _ _ _ Ht)
      as [(_ & [= _ _ He] & ->) | [(_ & _ & [= _ _ He] & ->)
         | (_ & e & t & e' & He & _)]];
      destruct (emulate && do_not_emulate i); auto; discriminate. }
  destruct Hrest as [(e & Ho & _) | [(Ho & _) | (j & st2 & Ho & Hrec)]].
  - eapply one_emulator_untouched, Ho.
  - eapply one_emulator_untouched, Ho.
  - eapply emulator_untouched_trans;
      [eapply one_emulator_untouched, Ho | eapply IH, Hrec].
Qed.

(** The unsafe groups are exactly call, interrupt, invalid and
    interrupt-return. *)
Lemma do_not_emulate_spec insn :
  do_not_emulate insn = true <->
  exists g, g ∈ groups insn
    /\ (g = CS_GRP_CALL \/ g = CS_GRP_INT
        \/ g = CS_GRP_INVALID \/ g = CS_GRP_IRET).
Proof.
  unfold do_not_emulate, DO_NOT_EMULATE.
  rewrite negb_true_iff, bool_decide_eq_false. split.
  - intros H. apply set_choose_L in H as [g Hg].
    exists g. revert Hg.
    rewrite elem_of_intersection, elem_of_list_to_set, !elem_of_union,
      !elem_of_singleton. tauto.
  - intros (g & Hg & Hc) He.
    assert (g ∈ (∅ : gset Z)) as H; [|exact (not_elem_of_empty _ H)].
    rewrite <- He.
    rewrite elem_of_intersection, elem_of_list_to_set, !elem_of_union,
      !elem_of_singleton. tauto.
Qed.

(** C4: in the forward loop of [near], from the round that meets an
    instruction of an unsafe group (call, interrupt, invalid,
    interrupt-return) with emulation enabled up to the end of the loop, the
    emulator's [single_step] is not called, whatever emulator object the
    round started with. *)
Theorem near_forward_emulation_shutoff env fuel pc total insn insns emu
    st r st' :
  do_not_emulate insn = true ->
  near_forward env fuel pc total (Some insn) insns true emu st = (r, st') ->
  exists evs, calls st' = evs ++ calls st /\ EvSingleStep ∉ evs.
Proof.
  intros Hu H. change (emulator_untouched st st').
  destruct (Z_lt_le_dec (Z.of_nat (length insns)) total) as [Hlt|Hge];
    [|rewrite near_forward_stop in H by auto; inversion H;
      apply emulator_untouched_refl].
  destruct (near_forward_inv _ _ _ _ _ _ _ _ _ _ _ H Hlt)
    as [(Hf & _ & ->) | (fuel' & tgt & em' & emu' & st1 & Hf & Ht & Hrest)];
    [apply emulator_untouched_refl|].
  assert (emu' = None /\ st1 = st) as [-> ->].
  { destruct (near_forward_target_cases _ _ _ _ _ _ _ _ Ht)
      as [(_ & [= _ _ He] & ->) | [(_ & _ & [= _ _ He] & ->)
         | (_ & e & t & e' & He & _)]];
      try rewrite Hu in He; cbn in He; auto; discriminate. }
  destruct Hrest as [(e & Ho & _) | [(Ho & _) | (j & st2 & Ho & Hrec)]].
  - eapply one_emulator_untouched, Ho.
  - eapply one_emulator_untouched, Ho.
  - eapply emulator_untouched_trans;
      [eapply one_emulator_untouched, Ho
      | eapply near_forward_emulator_untouched, Hrec].
Qed.

Lemma near_forward_emulation_shutoff_witness :
  exists evs,
    calls (near_forward at_syscall 5 300 5 (Some i300) [i300] true
             (Some syscall_script) empty_state).2
    = evs ++ calls empty_state
    /\ EvSingleStep ∉ evs.
Proof.
  apply (near_forward_emulation_shutoff at_syscall 5 300 5 i300 [i300]
           (Some syscall_script) empty_state
           (near_forward at_syscall 5 300 5 (Some i300) [i300] true
              (Some syscall_script) empty_state).1).
  - vm_compute. reflexivity.
  - apply surjective_pairing.
Defined.

(** Stopped at the system call 300 with emulation requested, the only
    [single_step] is the one made when the emulator is created; the window
    then runs through 302 and 304 without it. *)
Lemma near_at_syscall_steps_once :
  near at_syscall 300 1 true empty_state
  = (Ok [i300; i302; i304],
     mkState
       (list_to_map [ (300, None); (302, Some 300); (304, Some 302);
                      (306, Some 304) ])
       (list_to_map [ (300, Some i300); (302, Some i302);
                      (304, Some i304) ])
       [ EvDisasm 304; EvRead 304 16; EvDisasm 302; EvRead 302 16;
         EvSingleStep; EvEmulator; EvDisasm 300; EvRead 300 16 ]).
Proof. vm_compute. reflexivity. Qed.

(** Stopped at the indirect jump 302 with emulation requested, the forward
    pass asks the emulator and continues at the address it reports, 400. *)
Lemma near_follows_emulator :
  (near at_indirect_jump 302 1 true empty_state).1 = Ok [i302; i400]
  /\ calls (near at_indirect_jump 302 1 true empty_state).2
     = [ EvSingleStep; EvDisasm 400; EvRead 400 16; EvSingleStep;
         EvSingleStep; EvEmulator; EvDisasm 302; EvRead 302 16 ].
Proof. split; vm_compute; reflexivity. Qed.

(** ** Where the forward pass continues *)

Lemma chain_impl {A : Type} (R R' : A -> A -> Prop) l :
  (forall a b, R a b -> R' a b) -> chain R l -> chain R' l.
Proof.
  intros HR. induction l as [|a [|b l] IH]; cbn; auto.
  intros [Hab Hl]. split; [apply HR, Hab | apply IH, Hl].
Qed.

Lemma decoded_address env md addr i :
  decoder_ok env -> decoded env md addr = Some i -> address i = addr.
Proof.
  intros Hd. unfold decoded.
  destruct (cs_disasm env md _ addr) as [|ins rest] eqn:Hc; [discriminate|].
  intros [= <-]. cbn. eapply Hd, Hc.
Qed.

Lemma get_one_instruction_cache_ok env addr st r st' :
  decoder_ok env -> cache_ok st ->
  get_one_instruction env addr st = (r, st') ->
  cache_ok st' /\ forall i, r = Ok (Some i) -> address i = addr.
Proof.
  intros Hd Hc H. destruct (get_one_instruction_cases _ _ _ _ _ H)
    as [(v & Hv & -> & ->) | [(md & _ & _ & -> & ->) | (e & _ & _ & -> & ->)]].
  - split; [exact Hc|]. intros i [= ->]. eapply Hc, Hv.
  - split.
    + intros a i. unfold missed. cbn. rewrite lookup_insert.
      case_decide as Ha.
      * subst a. intros [= Hi]. eapply decoded_address; eassumption.
      * apply Hc.
    + intros i [= Hi]. eapply decoded_address; eassumption.
  - split; [exact Hc | discriminate].
Qed.

Lemma one_cache_ok env x st r st' :
  decoder_ok env -> cache_ok st ->
  one env x st = (r, st') ->
  cache_ok st'
  /\ forall i, r = Ok (Some i) -> address i = default (regs_pc env) x.
Proof.
  intros Hd Hc H. destruct (one_cases _ _ _ _ _ H)
    as [(_ & -> & ->) | [(_ & Hg & ->)
       | [(i & st1 & _ & Hg & -> & ->) | (e & _ & Hg & ->)]]].
  - split; [exact Hc | discriminate].
  - apply get_one_instruction_cache_ok in Hg as [Hc' _]; [|assumption..].
    split; [exact Hc' | discriminate].
  - apply get_one_instruction_cache_ok in Hg as [Hc' Ha]; [|assumption..].
    split; [exact Hc'|]. intros j [= <-]. apply Ha. reflexivity.
  - apply get_one_instruction_cache_ok in Hg as [Hc' _]; [|assumption..].
    split; [exact Hc' | discriminate].
Qed.

(** The address chosen by one round of the forward loop. *)
Lemma near_forward_target_choice env pc i emulate emu st tgt em' emu' st1 :
  near_forward_target env pc i emulate emu st
  = (Ok (tgt, em', emu'), st1) ->
  get_one_instruction_cache st1 = get_one_instruction_cache st
  /\ (is_call i = true -> tgt = Some (next i))
  /\ (emu = None ->
      emu' = None
      /\ (is_call i = false ->
          tgt = if bool_decide (target i = Some pc)
                then target i else Some (next i))).
Proof.
  intros H. destruct (near_forward_target_cases _ _ _ _ _ _ _ _ H)
    as [(Hcall & [= -> _ He] & ->) | [(Hcall & _ & [= -> _ He] & ->)
       | (Hcall & e & t & e' & He & _ & ->)]].
  - split; [reflexivity|]. split; [reflexivity|]. intros ->.
    split; [destruct (emulate && do_not_emulate i); auto | congruence].
  - split; [reflexivity|]. split; [congruence|]. intros _.
    split; [congruence | reflexivity].
  - split; [reflexivity|]. split; [congruence|]. intros ->.
    destruct (emulate && do_not_emulate i); discriminate.
Qed.

Lemma near_forward_chain env fuel pc total i insns emulate emu st l st' :
  decoder_ok env -> cache_ok st ->
  near_forward env fuel pc total (Some i) insns emulate emu st
  = (Ok l, st') ->
  exists more,
    l = insns ++ more
    /\ chain (forward_successor pc (no_emulator emu)) (i :: more).
Proof.
  intros Hd. revert i insns emulate emu st.
  induction fuel as [|fuel IH]; intros i insns emulate emu st Hc H.
  all: destruct (Z_lt_le_dec (Z.of_nat (length insns)) total) as [Hlt|Hge];
    [|rewrite near_forward_stop in H by auto; inversion H; subst;
      exists []; rewrite app_nil_r; cbn; auto].
  all: destruct (near_forward_inv _ _ _ _ _ _ _ _ _ _ _ H Hlt)
      as [(_ & [=] & _) | (fuel' & tgt & em' & emu' & st1 & Hf & Ht & Hrest)];
    try discriminate.
  injection Hf as <-.
  destruct (near_forward_target_choice _ _ _ _ _ _ _ _ _ _ Ht)
    as (Hcache & Hcall & Hstatic).
  assert (cache_ok st1) as Hc1.
  { intros a j. rewrite Hcache. apply Hc. }
  destruct Hrest as [(e & _ & [=]) | [(_ & [= <-]) | (j & st2 & Ho & Hrec)]].
  { exists []. rewrite app_nil_r. cbn. auto. }
  destruct (one_cache_ok _ _ _ _ _ Hd Hc1 Ho) as [Hc2 Haddr].
  specialize (Haddr j eq_refl).
  apply IH in Hrec as (more & -> & Hchain); [|exact Hc2].
  exists (j :: more). split; [rewrite <- app_assoc; reflexivity|].
  change (forward_successor pc (no_emulator emu) i j
          /\ chain (forward_successor pc (no_emulator emu)) (j :: more)).
  split.
  - split.
    + intros Hi. rewrite (Hcall Hi) in Haddr. cbn in Haddr.
      split; [exact Haddr | congruence].
    + intros Hs. destruct emu; [discriminate|].
      destruct (Hstatic eq_refl) as [_ Htgt]. intros Hi.
      rewrite (Htgt Hi) in Haddr.
      case_bool_decide as Hpc.
      * rewrite Hpc in Haddr. cbn in Haddr. split; [congruence | auto].
      * cbn in Haddr. split; [auto | congruence].
  - eapply chain_impl; [|exact Hchain].
    intros a b [Ha Hb]. split; [exact Ha|].
    intros Hs. apply Hb. destruct emu; [discriminate|].
    destruct (Hstatic eq_refl) as [-> _]. reflexivity.
Qed.

Lemma debuggee_decoder_ok arch code pc emu :
  decoder_ok (debuggee arch code pc emu).
Proof.
  intros md data addr ins rest. cbn.
  destruct data; [discriminate|].
  destruct (code !! addr); [|discriminate].
  intros [= <- _]. reflexivity.
Qed.

Lemma empty_state_cache_ok : cache_ok empty_state.
Proof. intros addr i. cbn. rewrite lookup_empty. discriminate. Qed.

(** C2: in every forward pass of [near], with or without emulation, an
    instruction appended right after a call-class instruction C is the one
    at C's fall-through address [C.next]; hence it is not at C's branch
    target unless the two addresses are the same.  (The decoder yields at
    each address a record carrying that address, and so does the
    memoization table.) *)
Theorem near_forward_steps_over_calls env fuel pc total i insns emulate emu
    st l st' :
  decoder_ok env -> cache_ok st ->
  near_forward env fuel pc total (Some i) insns emulate emu st
  = (Ok l, st') ->
  exists more, l = insns ++ more /\ chain call_successor (i :: more).
Proof.
  intros Hd Hc H.
  destruct (near_forward_chain _ _ _ _ _ _ _ _ _ _ _ Hd Hc H)
    as (more & -> & Hchain).
  exists more. split; [reflexivity|].
  eapply chain_impl; [|exact Hchain]. intros a b [Hab _]. exact Hab.
Qed.

(** The live program counter is the destination 600 of the call at 500,
    and the window continues at 505 all the same. *)
Lemma near_forward_steps_over_calls_witness :
  exists more,
    [i500; i505] = [i500] ++ more /\ chain call_successor (i500 :: more).
Proof.
  apply (near_forward_steps_over_calls in_callee 3 600 2 i500 [i500]
           false None empty_state [i500; i505]
           (near_forward in_callee 3 600 2 (Some i500) [i500] false None
              empty_state).2).
  - apply debuggee_decoder_ok.
  - apply empty_state_cache_ok.
  - vm_compute. reflexivity.
Defined.

(** C6: in the forward pass of [near], from a round at which emulation is
    not active (there is no emulator object, or the instruction of the round
    is of an unsafe group and switches emulation off) to the end of the
    pass, the instruction appended right after an instruction C that is
    not of the call class is the one at C's fall-through address [C.next]
    whenever C's static target differs from the live program counter, and
    the one at that target (the live program counter) only when the two are
    equal.  (Same contract of the decoder as above.) *)
Theorem near_forward_static_successor env fuel pc total i insns emulate emu
    st l st' :
  decoder_ok env -> cache_ok st ->
  emu = None \/ emulate && do_not_emulate i = true ->
  near_forward env fuel pc total (Some i) insns emulate emu st
  = (Ok l, st') ->
  exists more, l = insns ++ more /\ chain (static_successor pc) (i :: more).
Proof.
  intros Hd Hc Hoff H.
  destruct (Z_lt_le_dec (Z.of_nat (length insns)) total) as [Hlt|Hge];
    [|rewrite near_forward_stop in H by auto; inversion H; subst;
      exists []; rewrite app_nil_r; cbn; auto].
  destruct (near_forward_inv _ _ _ _ _ _ _ _ _ _ _ H Hlt)
    as [(_ & [=] & _) | (fuel' & tgt & em' & emu' & st1 & _ & Ht & Hrest)].
  assert (emu' = None /\ st1 = st
          /\ (is_call i = false ->
              tgt = if bool_decide (target i = Some pc)
                    then target i else Some (next i)))
    as (-> & -> & Htgt).
  { assert ((if emulate && do_not_emulate i then None else emu) = None)
      as Hnone.
    { destruct Hoff as [-> | ->]; [|reflexivity].
      destruct (emulate && do_not_emulate i); reflexivity. }
    destruct (near_forward_target_cases _ _ _ _ _ _ _ _ Ht)
      as [(Hcall & [= _ _ He] & ->) | [(_ & _ & [= Htgt _ He] & ->)
         | (_ & e & t & e' & He & _)]].
    - split; [congruence|]. split; [reflexivity | congruence].
    - split; [congruence|]. split; [reflexivity|]. intros _. congruence.
    - congruence. }
  destruct Hrest as [(e & _ & [=]) | [(_ & [= <-]) | (j & st2 & Ho & Hrec)]].
  { exists []. rewrite app_nil_r. cbn. auto. }
  destruct (one_cache_ok _ _ _ _ _ Hd Hc Ho) as [Hc2 Haddr].
  specialize (Haddr j eq_refl).
  apply near_forward_chain in Hrec as (more & -> & Hchain);
    [|assumption..].
  exists (j :: more). split; [rewrite <- app_assoc; reflexivity|].
  change (static_successor pc i j /\ chain (static_successor pc) (j :: more)).
  split.
  - intros Hi. rewrite (Htgt Hi) in Haddr.
    case_bool_decide as Hpc.
    + rewrite Hpc in Haddr. cbn in Haddr. split; [congruence | auto].
    + cbn in Haddr. split; [auto | congruence].
  - eapply chain_impl; [|exact Hchain]. intros a b [_ Hab]. apply Hab.
    reflexivity.
Qed.

(** Emulation is on and an emulator object exists, and the round is at the
    software interrupt 300, which switches emulation off: the window
    continues at the fall-through addresses 302 and 304, and the emulator,
    which would report 400 after 302, is not asked. *)
Lemma near_forward_static_successor_witness :
  exists more,
    [i300; i302; i304] = [i300] ++ more
    /\ chain (static_successor 300) (i300 :: more).
Proof.
  apply (near_forward_static_successor at_syscall 3 300 3 i300 [i300]
           true (Some syscall_script) empty_state [i300; i302; i304]
           (near_forward at_syscall 3 300 3 (Some i300) [i300] true
              (Some syscall_script) empty_state).2).
  - apply debuggee_decoder_ok.
  - apply empty_state_cache_ok.
  - right. vm_compute. reflexivity.
  - vm_compute. reflexivity.
Defined.

(** Without an emulator object, with the live program counter at the jump
    700, whose target is 800, the window continues at 702. *)
Lemma near_forward_static_at_jump :
  near_forward at_jump 3 700 2 (Some i700) [i700] false None empty_state
  = (Ok [i700; i702],
     (near_forward at_jump 3 700 2 (Some i700) [i700] false None
        empty_state).2)
  /\ chain (static_successor 700) [i700; i702].
Proof.
  split; [vm_compute; reflexivity|].
  split; [|exact I]. intros _. split; [reflexivity | discriminate].
Qed.

(** One round of the forward loop without an emulator object, at an
    instruction that is not a call. *)
Lemma near_forward_static_round env fuel pc total i insns emulate st :
  Z.of_nat (length insns) < total ->
  is_call i = false ->
  near_forward env (S fuel) pc total (Some i) insns emulate None st =
  match one env (if bool_decide (target i = Some pc)
                 then target i else Some (next i)) st with
  | (Ok (Some j), st1) =>
    near_forward env fuel pc total (Some j) (insns ++ [j])
      (if emulate && do_not_emulate i then false else emulate) None st1
  | (Ok None, st1) => (Ok insns, st1)
  | (Raise e, st1) => (Raise e, st1)
  end.
Proof.
  intros Hlt Hcall. apply Z.ltb_lt in Hlt.
  cbn [near_forward]. rewrite Hlt.
  unfold near_forward_target, bind. cbn zeta. rewrite Hcall.
  destruct (emulate && do_not_emulate i);
    destruct (bool_decide (target i = Some pc)); cbn [negb ret];
    (destruct (one env _ st) as [[[j|]|e] st1]; [reflexivity | | reflexivity]);
    destruct fuel; reflexivity.
Qed.

(** [near] when the caller does not ask for emulation. *)
Lemma near_static env addr instructions st :
  near env addr instructions false st =
  match one env (Some addr) st with
  | (Ok (Some current), st1) =>
    match backward_cache_getitem (address current) st1 with
    | (Ok cached, st2) =>
      match one_if_cached env cached st2 with
      | (Ok insn, st3) =>
        match near_backward env (Z.to_nat instructions) instructions insn []
                st3 with
        | (Ok before, st4) =>
          near_forward env (Z.to_nat (1 + 2 * instructions)) (regs_pc env)
            (1 + 2 * instructions) (Some current) (rev before ++ [current])
            false None st4
        | (Raise e, st4) => (Raise e, st4)
        end
      | (Raise e, st3) => (Raise e, st3)
      end
    | (Raise e, st2) => (Raise e, st2)
    end
  | (Ok None, st1) => (Ok [], st1)
  | (Raise e, st1) => (Raise e, st1)
  end.
Proof.
  unfold near, bind.
  destruct (one env (Some addr) st) as [[[current|]|e] st1] eqn:Ho;
    try reflexivity.
  pose proof (one_some_readable _ _ _ _ _ Ho) as Hp. cbn in Hp.
  rewrite Hp. cbn [negb].
  destruct (backward_cache_getitem (address current) st1) as [[cached|e] st2];
    [|reflexivity].
  destruct (one_if_cached env cached st2) as [[insn|e] st3]; [|reflexivity].
  destruct (near_backward env _ instructions insn [] st3)
    as [[before|e] st4]; [|reflexivity].
  replace (if negb (emu_module env)
              || negb (bool_decide (arch_current env ∈ arch_to_UC env))
           then false else false) with false
    by (destruct (_ || _); reflexivity).
  rewrite andb_false_r. reflexivity.
Qed.

(** ** The concrete scenario *)

(** Evaluate the calls of the backward part, which never look at the live
    program counter. *)
Ltac run_backward :=
  repeat match goal with
  | |- context [one ?e (Some ?a) ?s] =>
    let v := eval vm_compute in (one e (Some a) s) in
    change (one e (Some a) s) with v; cbv beta iota
  | |- context [backward_cache_getitem ?k ?s] =>
    let v := eval vm_compute in (backward_cache_getitem k s) in
    change (backward_cache_getitem k s) with v; cbv beta iota
  | |- context [one_if_cached ?e ?c ?s] =>
    let v := eval vm_compute in (one_if_cached e c s) in
    change (one_if_cached e c s) with v; cbv beta iota
  | |- context [near_backward ?e ?f ?n ?i ?l ?s] =>
    let v := eval vm_compute in (near_backward e f n i l s) in
    change (near_backward e f n i l s) with v; cbv beta iota
  end.

(** C5, as stated, fails: with the live program counter anywhere but at
    200 (here at 103, the debuggee being stopped at the jump), the forward
    pass does not follow the jump to 200; it looks at the fall-through
    address 106, where nothing resolves. *)
Lemma near_scenario_does_not_follow_jump :
  (near (scenario 103) 103 1 false scenario_recorded).1 = Ok [i100; i103]
  /\ (near (scenario 103) 103 1 false scenario_recorded).1
     <> Ok [i100; i103; i200]
  /\ (near (scenario 103) 103 1 false empty_state).1 = Ok [i103]
  /\ (near (scenario 103) 103 1 false empty_state).1 <> Ok [i103; i200].
Proof.
  assert ((near (scenario 103) 103 1 false scenario_recorded).1
          = Ok [i100; i103]) as H1 by (vm_compute; reflexivity).
  assert ((near (scenario 103) 103 1 false empty_state).1 = Ok [i103])
    as H2 by (vm_compute; reflexivity).
  rewrite H1, H2. repeat split; discriminate.
Qed.

(** C5, amended: on the stream 100, 103 (a direct jump to 200), 200,
    [near(103, 1, emulate=False)] returns [100, 103, 200] when 100 was
    recorded as the predecessor of 103, and [103, 200] otherwise, when the
    live program counter is 200; for any other live program counter the
    forward pass takes the fall-through 106 instead of the jump target, and
    as nothing resolves at 106 the results are [100, 103] and [103]. *)
Theorem near_scenario pc :
  (near (scenario pc) 103 1 false scenario_recorded).1
  = Ok (if decide (pc = 200) then [i100; i103; i200] else [i100; i103])
  /\ (near (scenario pc) 103 1 false empty_state).1
     = Ok (if decide (pc = 200) then [i103; i200] else [i103]).
Proof.
  destruct (decide (pc = 200)) as [->|Hne].
  - split; vm_compute; reflexivity.
  - split; rewrite near_static; run_backward;
      change (Z.to_nat (1 + 2 * 1)) with 3%nat;
      change (regs_pc (scenario pc)) with pc;
      (rewrite near_forward_static_round;
         [|cbn; lia | reflexivity]);
      (rewrite bool_decide_eq_false_2 by (cbn; congruence));
      run_backward; reflexivity.
Qed.

(** ** Going backward through the recorded predecessors *)

Lemma get_one_instruction_cache_mono env addr st r st' a v :
  get_one_instruction env addr st = (r, st') ->
  get_one_instruction_cache st !! a = Some v ->
  get_one_instruction_cache st' !! a = Some v.
Proof.
  intros H Ha. destruct (get_one_instruction_cases _ _ _ _ _ H)
    as [(w & _ & _ & ->) | [(md & Hn & _ & _ & ->) | (e & _ & _ & _ & ->)]];
    try exact Ha.
  unfold missed. cbn. rewrite lookup_insert_ne; [exact Ha | congruence].
Qed.

Lemma one_cache_mono env x st r st' a v :
  one env x st = (r, st') ->
  get_one_instruction_cache st !! a = Some v ->
  get_one_instruction_cache st' !! a = Some v.
Proof.
  intros H Ha. destruct (one_cases _ _ _ _ _ H)
    as [(_ & _ & ->) | [(_ & Hg & _)
       | [(i & st1 & _ & Hg & _ & ->) | (e & _ & Hg & _)]]];
    [exact Ha | | cbn | ];
    eapply get_one_instruction_cache_mono; eassumption.
Qed.

Lemma one_memoizes env x st insn st' :
  one env x st = (Ok (Some insn), st') ->
  get_one_instruction_cache st' !! default (regs_pc env) x
  = Some (Some insn).
Proof.
  intros H. destruct (one_cases _ _ _ _ _ H)
    as [(_ & [=] & _) | [(_ & _ & [=])
       | [(i & st1 & _ & Hg & [= <-] & ->) | (e & _ & _ & [=])]]].
  cbn. eapply get_one_instruction_stored, Hg.
Qed.

(** A resolution served by the memoization table. *)
Lemma one_memoized env addr st insn :
  memory_peek env addr = true ->
  get_one_instruction_cache st !! addr = Some (Some insn) ->
  one env (Some addr) st
  = (Ok (Some insn),
     set_backward_cache <[next insn := Some (address insn)]> st).
Proof.
  intros Hp Hc. rewrite one_eq. cbn [default from_option id]. cbn zeta.
  rewrite Hp, (get_one_instruction_hit _ _ _ _ Hc). reflexivity.
Qed.

Lemma one_keeps_link env x st r st' a b :
  one env x st = (r, st') ->
  keeps_link a b r ->
  backward_cache st !! b = Some (Some a) ->
  backward_cache st' !! b = Some (Some a).
Proof.
  intros H Hk Hb. destruct r as [[insn|]|e].
  - rewrite (one_backward_cache _ _ _ _ _ H), lookup_insert.
    case_decide as Hn; [|exact Hb].
    rewrite (Hk insn eq_refl Hn). reflexivity.
  - destruct (one_cases _ _ _ _ _ H)
      as [(_ & _ & ->) | [(_ & Hg & _)
         | [(i & st1 & _ & _ & [=] & _) | (e & _ & _ & [=])]]];
      [exact Hb|].
    pose proof (get_one_instruction_backward_cache env
                  (default (regs_pc env) x) st) as Hbc.
    rewrite Hg in Hbc. cbn in Hbc. rewrite Hbc. exact Hb.
  - destruct (one_cases _ _ _ _ _ H)
      as [(_ & [=] & _) | [(_ & _ & [=])
         | [(i & st1 & _ & _ & [=] & _) | (e' & _ & Hg & _)]]].
    pose proof (get_one_instruction_backward_cache env
                  (default (regs_pc env) x) st) as Hbc.
    rewrite Hg in Hbc. cbn in Hbc. rewrite Hbc. exact Hb.
Qed.

Lemma resolutions_keep_link env xs st rs st' a b insn :
  resolutions env xs st = (rs, st') ->
  Forall (keeps_link a b) rs ->
  backward_cache st !! b = Some (Some a) ->
  get_one_instruction_cache st !! a = Some (Some insn) ->
  backward_cache st' !! b = Some (Some a)
  /\ get_one_instruction_cache st' !! a = Some (Some insn).
Proof.
  revert st rs. induction xs as [|x xs IH]; intros st rs H Hk Hb Hc.
  - inversion H; subst. auto.
  - cbn [resolutions] in H.
    destruct (one env x st) as [r st1] eqn:Ho.
    destruct (resolutions env xs st1) as [rs' st2] eqn:Hr.
    inversion H; subst. inversion Hk; subst.
    eapply IH; [exact Hr | assumption | |].
    + eapply one_keeps_link; eassumption.
    + eapply one_cache_mono; eassumption.
Qed.

(** The result of the memoized resolver depends on the state through the
    memoization table only, and resolving one address does not change what
    another resolves to. *)
Lemma get_one_instruction_fst_cache env addr s1 s2 :
  get_one_instruction_cache s1 !! addr = get_one_instruction_cache s2 !! addr ->
  (get_one_instruction env addr s1).1 = (get_one_instruction env addr s2).1.
Proof.
  intros H. destruct (get_one_instruction_cache s1 !! addr) as [v|] eqn:H1.
  - rewrite (get_one_instruction_hit _ _ _ _ H1).
    symmetry in H. rewrite (get_one_instruction_hit _ _ _ _ H). reflexivity.
  - rewrite (get_one_instruction_miss _ _ _ H1).
    symmetry in H. rewrite (get_one_instruction_miss _ _ _ H).
    destruct (get_disassembler env addr); reflexivity.
Qed.

Lemma get_one_instruction_stable env addr addr' st r st' :
  get_one_instruction env addr' st = (r, st') ->
  (get_one_instruction env addr st').1 = (get_one_instruction env addr st).1.
Proof.
  intros H. destruct (get_one_instruction_cases _ _ _ _ _ H)
    as [(v & _ & _ & ->) | [(md & Hn & Hmd & _ & ->) | (e & _ & _ & _ & ->)]];
    try reflexivity.
  destruct (decide (addr = addr')) as [->|Hne].
  - rewrite (get_one_instruction_hit _ _ (missed env addr' _ st)
               (decoded env md addr'))
      by (unfold missed; cbn; apply lookup_insert_eq).
    rewrite (get_one_instruction_miss _ _ _ Hn), Hmd. reflexivity.
  - apply get_one_instruction_fst_cache. unfold missed. cbn.
    apply lookup_insert_ne. congruence.
Qed.

Lemma one_fst env x st :
  (one env x st).1
  = if memory_peek env (default (regs_pc env) x)
    then (get_one_instruction env (default (regs_pc env) x) st).1
    else Ok None.
Proof.
  rewrite one_eq. cbn zeta.
  destruct (memory_peek env (default (regs_pc env) x)); [|reflexivity].
  destruct (get_one_instruction env _ st) as [[[i|]|e] st1]; reflexivity.
Qed.

(** A call of [one] does not change what any address resolves to. *)
Lemma one_stable env x y st r st' :
  one env y st = (r, st') -> (one env x st').1 = (one env x st).1.
Proof.
  intros H. rewrite !one_fst.
  destruct (memory_peek env (default (regs_pc env) x)); [|reflexivity].
  destruct (one_cases _ _ _ _ _ H)
    as [(_ & _ & ->) | [(_ & Hg & _)
       | [(i & st1 & _ & Hg & _ & ->) | (e & _ & Hg & _)]]].
  - reflexivity.
  - eapply get_one_instruction_stable, Hg.
  - rewrite <- (get_one_instruction_stable _ (default (regs_pc env) x)
                  _ _ _ _ Hg).
    apply get_one_instruction_fst_cache. reflexivity.
  - eapply get_one_instruction_stable, Hg.
Qed.

(** The window anchored at B, in a state whose backward-link entry for B
    names the address of A, where that address resolves to A. *)
Lemma near_adjacent env a b st count emulate r st' :
  backward_cache st !! address b = Some (Some (address a)) ->
  (one env (Some (address a)) st).1 = Ok (Some a) ->
  address a <> 0 ->
  (one env (Some (address b)) st).1 = Ok (Some b) ->
  keeps_link (address a) (address b) (Ok (Some b)) ->
  1 <= count ->
  near env (address b) count emulate st = (r, st') ->
  forall l, r = Ok l -> adjacent a b l.
Proof.
  intros Hb Hres Hz Hanchor Hk Hcount H l ->.
  destruct (near_stages _ _ _ _ _ _ _ H)
    as [(e & _ & [=]) | [(Ho & _)
       | (current & st1 & cached & st2 & Ho & Hget & Hrest)]].
  { rewrite Ho in Hanchor. discriminate. }
  rewrite Ho in Hanchor. injection Hanchor as ->.
  pose proof (one_keeps_link _ _ _ _ _ _ _ Ho Hk Hb) as Hb1.
  rewrite <- (one_stable _ (Some (address a)) _ _ _ _ Ho) in Hres.
  unfold backward_cache_getitem in Hget. rewrite Hb1 in Hget.
  injection Hget as <- <-.
  unfold one_if_cached, truthy in Hrest.
  replace (address a =? 0) with false in Hrest
    by (symmetry; apply Z.eqb_neq; exact Hz).
  cbn [negb] in Hrest.
  destruct Hrest as [(e & _ & [=]) | (insn & st3 & Hi & Hrest)].
  rewrite Hi in Hres. injection Hres as ->.
  destruct Hrest
    as [(e & _ & [=]) | (before & st4 & em' & emu & st5 & Hback & _ & Hfwd)].
  assert (exists more, before = a :: more) as [more ->].
  { destruct (near_backward_inv _ _ _ _ _ _ _ _ Hback)
      as [(Hf & _) | (fuel' & c & s1 & Hf & _ & [(e & _ & [=])
                     | (insn' & s2 & _ & Hrec)])];
      [cbn [length]; lia | lia |].
    apply near_backward_length in Hrec as [[more ->] _];
      [|rewrite length_app; cbn [length]; lia].
    exists more. reflexivity. }
  apply near_forward_length in Hfwd as [[after ->] _]; [|lia].
  exists (rev more), after. cbn [rev].
  rewrite <- !app_assoc. reflexivity.
Qed.

(** Within one execution generation of an unchanged debuggee, calls of
    [one] that keep the entry of B's address leave A shown before B. *)
Lemma near_after_resolutions env a b xs st0 st1 rs st count emulate l st' :
  one env (Some (address a)) st0 = (Ok (Some a), st1) ->
  next a = address b ->
  resolutions env xs st1 = (rs, st) ->
  Forall (keeps_link (address a) (address b)) rs ->
  (one env (Some (address b)) st).1 = Ok (Some b) ->
  keeps_link (address a) (address b) (Ok (Some b)) ->
  address a <> 0 ->
  1 <= count ->
  near env (address b) count emulate st = (Ok l, st') ->
  adjacent a b l.
Proof.
  intros Ha Hnext Hxs Hkeep Hanchor Hk Hz Hcount H.
  pose proof (one_some_readable _ _ _ _ _ Ha) as Hp. cbn in Hp.
  pose proof (one_memoizes _ _ _ _ _ Ha) as Hc. cbn in Hc.
  pose proof (one_backward_cache _ _ _ _ _ Ha) as Hb.
  apply (f_equal (fun m => m !! next a)) in Hb.
  rewrite lookup_insert_eq, Hnext in Hb.
  destruct (resolutions_keep_link _ _ _ _ _ _ _ _ Hxs Hkeep Hb Hc)
    as [Hb' Hc'].
  eapply near_adjacent; try eassumption; [|reflexivity].
  rewrite (one_memoized _ _ _ _ Hp Hc'). reflexivity.
Qed.

(** C3, as stated, fails: 4095 is resolved by [one] and recorded as the
    predecessor of 4096; the debuggee then runs on and unmaps the page of
    4095.  No resolution has touched the entry of 4096, which still names
    4095, yet the window anchored at 4096 starts at 4096: the recorded
    address no longer resolves and the backward walk stops there. *)
Lemma near_after_unmap_forgets_predecessor :
  (one before_unmap (Some (address i4095)) empty_state).1
  = Ok (Some i4095)
  /\ next i4095 = address i4096
  /\ backward_cache
       (cont (one before_unmap (Some (address i4095)) empty_state).2)
     !! address i4096 = Some (Some (address i4095))
  /\ (near after_unmap (address i4096) 1 false
        (cont (one before_unmap (Some (address i4095)) empty_state).2)).1
     = Ok [i4096]
  /\ ~ adjacent i4095 i4096 [i4096].
Proof.
  split; [vm_compute; reflexivity|]. split; [reflexivity|].
  split; [vm_compute; reflexivity|]. split; [vm_compute; reflexivity|].
  intros (l1 & l2 & H). apply (f_equal length) in H.
  rewrite length_app in H. cbn [length] in H. lia.
Qed.

(** A recorded predecessor at address 0 is not used either: the test
    [if cached] of the backward pass takes the address 0 for a missing
    entry. *)
Lemma near_ignores_predecessor_at_zero :
  (one low_memory (Some (address i0)) empty_state).1 = Ok (Some i0)
  /\ next i0 = address i4
  /\ (near low_memory (address i4) 1 false
        (one low_memory (Some (address i0)) empty_state).2).1
     = Ok [i4].
Proof. repeat split; vm_compute; reflexivity. Qed.

(** C3, amended: let A have been resolved by [one] at its address, which
    is not 0, with [A.next] equal to the address of B, in whatever debuggee
    and state; and let the entry of [backward_cache] for B's address be, at
    the time of the window request, as that resolution left it, the
    resolution of the anchor B not replacing it either.  If A's address still
    resolves to A at that time, a window request anchored at B with count >= 1
    returns a list in which A stands immediately before B, unless it raises
    the exception of a decoder session that cannot be built.  Nothing is
    asked of what happened in between: the debuggee may have run on and the
    memoization table may have been reset. *)
Theorem near_shows_recorded_predecessor env0 env a b st0 st1 st count
    emulate :
  one env0 (Some (address a)) st0 = (Ok (Some a), st1) ->
  next a = address b ->
  backward_cache st !! address b = backward_cache st1 !! address b ->
  keeps_link (address a) (address b) (Ok (Some b)) ->
  address a <> 0 ->
  (one env (Some (address a)) st).1 = Ok (Some a) ->
  (one env (Some (address b)) st).1 = Ok (Some b) ->
  1 <= count ->
  (exists l st',
      near env (address b) count emulate st = (Ok l, st')
      /\ adjacent a b l)
  \/ (exists e st',
      near env (address b) count emulate st = (Raise e, st')
      /\ configuration_error e
      /\ get_disassembler env 0 = Raise e).
Proof.
  intros Ha Hnext Hentry Hk Hz Hres Hanchor Hcount.
  pose proof (one_backward_cache _ _ _ _ _ Ha) as Hb.
  apply (f_equal (fun m => m !! next a)) in Hb.
  rewrite lookup_insert_eq, Hnext, <- Hentry in Hb.
  destruct (near env (address b) count emulate st) as [r st'] eqn:H.
  destruct r as [l|e].
  - left. exists l, st'. split; [reflexivity|].
    eapply near_adjacent; try eassumption. reflexivity.
  - right. apply near_result in H as [He Hd]. eauto.
Qed.

(** 100 is resolved with the debuggee stopped at 103; the debuggee runs
    on, the memoization table is reset, and it stops at 200 with its memory
    unchanged; the window at 103 still shows 100 before 103. *)
Lemma near_shows_recorded_predecessor_witness :
  (exists l st',
      near (scenario 200) (address i103) 1 false
        (cont (one (scenario 103) (Some (address i100)) empty_state).2)
      = (Ok l, st')
      /\ adjacent i100 i103 l)
  \/ (exists e st',
      near (scenario 200) (address i103) 1 false
        (cont (one (scenario 103) (Some (address i100)) empty_state).2)
      = (Raise e, st')
      /\ configuration_error e
      /\ get_disassembler (scenario 200) 0 = Raise e).
Proof.
  apply (near_shows_recorded_predecessor (scenario 103) (scenario 200)
           i100 i103 empty_state
           (one (scenario 103) (Some (address i100)) empty_state).2).
  - vm_compute. reflexivity.
  - reflexivity.
  - reflexivity.
  - intros x [= <-]. discriminate.
  - discriminate.
  - vm_compute. reflexivity.
  - vm_compute. reflexivity.
  - lia.
Defined.

(** ** More on the decoder session factory *)

Lemma CapstoneArch_keys arch :
  is_Some (CapstoneArch !! arch) <-> arch ∈ architectures.
Proof.
  rewrite <- elem_of_dom. unfold CapstoneArch.
  rewrite dom_list_to_map_L, elem_of_list_to_set. reflexivity.
Qed.

Lemma CapstoneEndian_keys endian :
  is_Some (CapstoneEndian !! endian) <-> endian ∈ endians.
Proof.
  rewrite <- elem_of_dom. unfold CapstoneEndian.
  rewrite dom_list_to_map_L, elem_of_list_to_set. reflexivity.
Qed.

Lemma CapstoneMode_keys ptrsize :
  is_Some (CapstoneMode !! ptrsize) <-> ptrsize = 4 \/ ptrsize = 8.
Proof.
  rewrite <- not_eq_None_Some, CapstoneMode_lookup. lia.
Qed.

(** The mode the factory uses before the endianness is added. *)
Lemma mode_available ptrsize extra :
  (exists m, match extra with
             | Some e => Ok e
             | None => subscript TCapstoneMode CapstoneMode ptrsize
             end = Ok m)
  <-> is_Some extra \/ ptrsize = 4 \/ ptrsize = 8.
Proof.
  destruct extra as [e|].
  - split; [intros _; left; eauto | intros _; eauto].
  - rewrite <- CapstoneMode_keys. unfold subscript.
    destruct (CapstoneMode !! ptrsize) as [m|]; split.
    + intros _. right. eauto.
    + intros _. eauto.
    + intros [m [=]].
    + intros [[? [=]] | [? [=]]].
Qed.

(** X1: the decoder session factory gets as far as the constructor
    [Cs(arch, mode)], returning the handle it builds or raising its
    [CsError], exactly when the architecture is one of the seven names of
    [CapstoneArch], the endianness is "little" or "big", and either an extra
    mode is given or the pointer width is 4 or 8; a handle it returns always
    has [detail] switched on. *)
Theorem get_disassembler_cached_succeeds accepts arch ptrsize endian extra :
  (get_disassembler_cached accepts arch ptrsize endian extra = Raise CsError
   \/ (exists cs,
         get_disassembler_cached accepts arch ptrsize endian extra = Ok cs)
   <-> arch ∈ architectures /\ endian ∈ endians
       /\ (is_Some extra \/ ptrsize = 4 \/ ptrsize = 8))
  /\ (forall cs,
        get_disassembler_cached accepts arch ptrsize endian extra = Ok cs ->
        detail cs = true).
Proof.
  rewrite <- CapstoneArch_keys, <- CapstoneEndian_keys, <- mode_available.
  unfold get_disassembler_cached.
  set (mode := match extra with
               | Some e => Ok e
               | None => subscript TCapstoneMode CapstoneMode ptrsize
               end).
  unfold subscript.
  destruct (CapstoneArch !! arch) as [a|].
  2:{ split; [|discriminate].
      split; [intros [[=] | [? [=]]] | intros ([? [=]] & _)]. }
  destruct mode as [m|e] eqn:Hm.
  2:{ split; [|discriminate].
      split; [|intros (_ & _ & [? [=]])].
      assert (e = KeyError TCapstoneMode) as ->.
      { subst mode. destruct extra; [discriminate|].
        eapply subscript_raise, Hm. }
      intros [[=] | [? [=]]]. }
  destruct (CapstoneEndian !! endian) as [e|].
  2:{ split; [|discriminate].
      split; [intros [[=] | [? [=]]] | intros (_ & [? [=]] & _)]. }
  split.
  - split; [intros _; eauto 10|].
    intros _. destruct (accepts _ _); eauto.
  - destruct (accepts _ _); [|discriminate]. intros cs [= <-]. reflexivity.
Qed.

(** X2: the configuration errors come in the order of the subscripts.  An
    architecture outside [CapstoneArch] raises the architecture error
    whatever the other arguments are; the endianness error is raised only
    for a known architecture whose mode could be determined. *)
Theorem get_disassembler_cached_error_order accepts arch ptrsize endian
    extra :
  (get_disassembler_cached accepts arch ptrsize endian extra
     = Raise UnsupportedArchitecture
   <-> arch ∉ architectures)
  /\ (get_disassembler_cached accepts arch ptrsize endian extra
       = Raise (KeyError TCapstoneEndian)
     <-> arch ∈ architectures
         /\ (is_Some extra \/ ptrsize = 4 \/ ptrsize = 8)
         /\ endian ∉ endians).
Proof.
  rewrite <- CapstoneArch_keys, <- CapstoneEndian_keys, <- mode_available.
  unfold get_disassembler_cached, UnsupportedArchitecture.
  set (mode := match extra with
               | Some e => Ok e
               | None => subscript TCapstoneMode CapstoneMode ptrsize
               end).
  unfold subscript.
  destruct (CapstoneArch !! arch) as [a|].
  2:{ split; split; try discriminate.
      - intros _ [? [=]].
      - reflexivity.
      - intros ([? [=]] & _). }
  destruct mode as [m|e] eqn:Hm.
  2:{ assert (e = KeyError TCapstoneMode) as ->.
      { subst mode. destruct extra; [discriminate|].
        eapply subscript_raise, Hm. }
      split; split; try discriminate.
      - intros H. destruct H. eauto.
      - intros (_ & [? [=]] & _). }
  destruct (CapstoneEndian !! endian) as [e|]; split; split.
  - destruct (accepts _ _); discriminate.
  - intros H. destruct H. eauto.
  - destruct (accepts _ _); discriminate.
  - intros (_ & _ & H). destruct H. eauto.
  - discriminate.
  - intros H. destruct H. eauto.
  - intros _. split; [eauto|]. split; [eauto|]. intros [? [=]].
  - reflexivity.
Qed.

(** A capstone that takes sparc in big-endian mode only. *)
Lemma get_disassembler_cached_succeeds_witness :
  get_disassembler_cached
    (fun a m => negb (a =? CS_ARCH_SPARC) || Z.testbit m 31)
    "sparc" 4 "little" None
  = Raise CsError
  \/ (exists cs,
        get_disassembler_cached
          (fun a m => negb (a =? CS_ARCH_SPARC) || Z.testbit m 31)
          "sparc" 4 "little" None
        = Ok cs).
Proof.
  apply (proj1 (get_disassembler_cached_succeeds
                  (fun a m => negb (a =? CS_ARCH_SPARC) || Z.testbit m 31)
                  "sparc" 4 "little" None)).
  split; [|split].
  - vm_compute. repeat constructor.
  - vm_compute. repeat constructor.
  - right; left. reflexivity.
Defined.

Lemma get_disassembler_cached_error_order_witness :
  get_disassembler_cached (fun _ _ => true) "riscv" 3 "middle" None
  = Raise UnsupportedArchitecture.
Proof.
  apply (proj1 (get_disassembler_cached_error_order (fun _ _ => true)
                  "riscv" 3 "middle" None)).
  unfold architectures. intros H.
  repeat (apply elem_of_cons in H as [H|H]; [discriminate H|]).
  exact (not_elem_of_nil _ H).
Defined.

(** ** The session for the current architecture *)

Lemma land_32 c : Z.land c 32 = if Z.testbit c 5 then 32 else 0.
Proof.
  apply Z.bits_inj'. intros n Hn.
  rewrite Z.land_spec. change 32 with (2 ^ 5).
  rewrite Z.pow2_bits_eqb by lia.
  destruct (Z.eqb_spec 5 n) as [<-|Hne].
  - rewrite andb_true_r. destruct (Z.testbit c 5).
    + rewrite Z.pow2_bits_eqb by lia. reflexivity.
    + rewrite Z.bits_0. reflexivity.
  - rewrite andb_false_r. destruct (Z.testbit c 5).
    + rewrite Z.pow2_bits_eqb by lia. symmetry. apply Z.eqb_neq. exact Hne.
    + rewrite Z.bits_0. reflexivity.
Qed.

(** X3: on arm and aarch64 the extra mode is chosen by bit 5 of [cpsr]
    alone (Thumb when it is set, ARM otherwise), the subscript of the
    two-entry dictionary never fails, and the pointer width plays no part:
    whenever the endianness is "little" or "big" no [KeyError] is raised,
    and the outcome is the handle the constructor builds or its
    [CsError]. *)
Theorem get_disassembler_thumb env pc :
  arch_current env = "arm"%string \/ arch_current env = "aarch64"%string ->
  get_disassembler env pc
  = get_disassembler_cached (Cs_accepts env) (arch_current env)
      (arch_ptrsize env) (arch_endian env)
      (Some (if Z.testbit (regs_cpsr env) 5
             then CS_MODE_THUMB else CS_MODE_ARM))
  /\ (arch_endian env ∈ endians ->
      get_disassembler env pc = Raise CsError
      \/ exists cs, get_disassembler env pc = Ok cs).
Proof.
  intros Harch.
  assert (get_disassembler env pc
          = get_disassembler_cached (Cs_accepts env) (arch_current env)
              (arch_ptrsize env) (arch_endian env)
              (Some (if Z.testbit (regs_cpsr env) 5
                     then CS_MODE_THUMB else CS_MODE_ARM))) as Heq.
  { unfold get_disassembler.
    rewrite bool_decide_eq_true_2
      by (destruct Harch as [-> | ->]; set_solver).
    rewrite land_32.
    destruct (Z.testbit (regs_cpsr env) 5); reflexivity. }
  split; [exact Heq|]. intros He. rewrite Heq.
  unfold get_disassembler_cached, subscript.
  apply CapstoneEndian_keys in He as [e ->].
  assert (is_Some (CapstoneArch !! arch_current env)) as [a ->].
  { apply CapstoneArch_keys. unfold architectures.
    destruct Harch as [-> | ->]; set_solver. }
  match goal with
  | |- context [Cs_accepts env ?x ?m] => destruct (Cs_accepts env x m)
  end; eauto.
Qed.

Lemma get_disassembler_thumb_witness :
  get_disassembler low_memory 4
  = get_disassembler_cached (fun _ _ => true) "arm" 4 "little"
      (Some CS_MODE_ARM)
  /\ ("little"%string ∈ endians ->
      get_disassembler low_memory 4 = Raise CsError
      \/ exists cs, get_disassembler low_memory 4 = Ok cs).
Proof.
  apply (get_disassembler_thumb low_memory 4). left. reflexivity.
Defined.

(** ** Linear disassembly: [get] *)

Lemma calls_extend_refl P st : calls_extend P st st.
Proof. exists []. split; [reflexivity | constructor]. Qed.

Lemma calls_extend_trans P st1 st2 st3 :
  calls_extend P st1 st2 -> calls_extend P st2 st3 -> calls_extend P st1 st3.
Proof.
  intros (e1 & H1 & F1) (e2 & H2 & F2). exists (e2 ++ e1).
  split; [rewrite H2, H1, app_assoc; reflexivity|].
  apply Forall_app. auto.
Qed.

Lemma get_one_instruction_calls env addr st r st' :
  get_one_instruction env addr st = (r, st') ->
  calls_extend (decoder_event env) st st'.
Proof.
  intros H. destruct (get_one_instruction_cases _ _ _ _ _ H)
    as [(v & _ & _ & ->) | [(md & _ & _ & _ & ->) | (e & _ & _ & _ & ->)]];
    try apply calls_extend_refl.
  eexists [_; _]. split; [reflexivity|].
  repeat constructor.
Qed.

Lemma get_one_instruction_cache_subseteq env addr st r st' :
  get_one_instruction env addr st = (r, st') ->
  get_one_instruction_cache st ⊆ get_one_instruction_cache st'.
Proof.
  intros H. apply map_subseteq_spec. intros a v.
  eapply get_one_instruction_cache_mono, H.
Qed.

Lemma get_eq env addr instructions st :
  get env addr instructions st
  = if memory_peek env addr
    then get_loop env (Z.to_nat instructions) addr [] st
    else (Ok [], st).
Proof. unfold get. destruct (memory_peek env addr); reflexivity. Qed.

Lemma get_loop_S env n addr retval st :
  get_loop env (S n) addr retval st
  = match get_one_instruction env addr st with
    | (Ok (Some i), st1) => get_loop env n (next i) (retval ++ [i]) st1
    | (Ok None, st1) => (Ok retval, st1)
    | (Raise e, st1) => (Raise e, st1)
    end.
Proof.
  cbn [get_loop]. unfold bind.
  destruct (get_one_instruction env addr st) as [[[i|]|e] st1]; reflexivity.
Qed.

(** What the loop of [get] does to the state, and how much it returns. *)
Lemma get_loop_frame env n addr retval st r st' :
  get_loop env n addr retval st = (r, st') ->
  backward_cache st' = backward_cache st
  /\ get_one_instruction_cache st ⊆ get_one_instruction_cache st'
  /\ calls_extend (decoder_event env) st st'
  /\ match r with
     | Ok l => exists more, l = retval ++ more /\ (length more <= n)%nat
     | Raise e =>
       configuration_error e /\ get_disassembler env 0 = Raise e
     end.
Proof.
  revert addr retval st.
  induction n as [|n IH]; intros addr retval st H.
  - inversion H; subst. split; [reflexivity|]. split; [reflexivity|].
    split; [apply calls_extend_refl|].
    exists []. rewrite app_nil_r. split; [reflexivity | cbn; lia].
  - rewrite get_loop_S in H.
    destruct (get_one_instruction env addr st) as [r1 st1] eqn:Hg.
    pose proof (get_one_instruction_backward_cache env addr st) as Hb.
    rewrite Hg in Hb. cbn in Hb.
    pose proof (get_one_instruction_cache_subseteq _ _ _ _ _ Hg) as Hc.
    pose proof (get_one_instruction_calls _ _ _ _ _ Hg) as He.
    destruct r1 as [[i|]|e].
    + apply IH in H as (Hb' & Hc' & He' & Hr).
      split; [congruence|]. split; [etrans; eassumption|].
      split; [eapply calls_extend_trans; eassumption|].
      destruct r as [l|e]; [|exact Hr].
      destruct Hr as (more & -> & Hlen). exists (i :: more).
      rewrite <- app_assoc. split; [reflexivity | cbn; lia].
    + inversion H; subst. repeat (split; [assumption|]).
      exists []. rewrite app_nil_r. split; [reflexivity | cbn; lia].
    + inversion H; subst. repeat (split; [assumption|]).
      exact (get_one_instruction_raise _ _ _ _ _ Hg).
Qed.

(** X4: [get] returns at most [instructions] instructions (none for a
    count of 0 or less), and none, without touching the state, when the
    address is unreadable; the only exception it raises is the one
    ([KeyError] or [CsError]) of a decoder session that cannot be built. *)
Theorem get_length env addr instructions st r st' :
  get env addr instructions st = (r, st') ->
  match r with
  | Ok l =>
    Z.of_nat (length l) <= Z.max 0 instructions
    /\ (memory_peek env addr = false -> l = [] /\ st' = st)
  | Raise e => configuration_error e /\ get_disassembler env 0 = Raise e
  end.
Proof.
  rewrite get_eq. destruct (memory_peek env addr).
  - intros H. apply get_loop_frame in H as (_ & _ & _ & Hr).
    destruct r as [l|e]; [|exact Hr].
    destruct Hr as (more & -> & Hlen). cbn [app].
    split; [lia | discriminate].
  - intros [= <- <-]. split; [cbn; lia | auto].
Qed.

Lemma get_length_witness :
  match (get (scenario 103) 100 5 empty_state).1 with
  | Ok l =>
    Z.of_nat (length l) <= Z.max 0 5
    /\ (memory_peek (scenario 103) 100 = false ->
        l = [] /\ (get (scenario 103) 100 5 empty_state).2 = empty_state)
  | Raise e =>
    configuration_error e
    /\ get_disassembler (scenario 103) 0 = Raise e
  end.
Proof.
  apply (get_length (scenario 103) 100 5 empty_state). apply surjective_pairing.
Defined.


Lemma get_loop_sweep env n addr retval st l st' :
  decoder_ok env -> cache_ok st ->
  get_loop env n addr retval st = (Ok l, st') ->
  exists more, l = retval ++ more /\ sweep addr more /\ cache_ok st'.
Proof.
  intros Hd. revert addr retval st.
  induction n as [|n IH]; intros addr retval st Hc H.
  - inversion H; subst. exists []. rewrite app_nil_r. cbn. auto.
  - rewrite get_loop_S in H.
    destruct (get_one_instruction env addr st) as [r1 st1] eqn:Hg.
    destruct (get_one_instruction_cache_ok _ _ _ _ _ Hd Hc Hg) as [Hc1 Ha].
    destruct r1 as [[i|]|e]; [| |discriminate].
    + apply IH in H as (more & -> & Hs & Hc'); [|exact Hc1].
      exists (i :: more). rewrite <- app_assoc.
      split; [reflexivity|]. split; [|exact Hc'].
      cbn [sweep]. split; [apply Ha; reflexivity | exact Hs].
    + inversion H; subst. exists []. rewrite app_nil_r. cbn. auto.
Qed.

(** X6: the list [get] returns is a linear sweep from the requested
    address: its first instruction is at that address and each further one
    is at the fall-through address of the one before, whatever its branch
    target is.  (The decoder yields at each address a record carrying that
    address, and so does the memoization table.) *)
Theorem get_sweep env addr instructions st l st' :
  decoder_ok env -> cache_ok st ->
  get env addr instructions st = (Ok l, st') ->
  sweep addr l.
Proof.
  intros Hd Hc. rewrite get_eq. destruct (memory_peek env addr).
  - intros H. apply get_loop_sweep in H as (more & -> & Hs & _); auto.
  - intros [= <- <-]. exact I.
Qed.

(** From the jump at 700 [get] walks on to 702, not to the target 800. *)
Lemma get_sweep_witness : sweep 700 [i700; i702].
Proof.
  apply (get_sweep at_jump 700 2 empty_state [i700; i702]
           (get at_jump 700 2 empty_state).2).
  - apply debuggee_decoder_ok.
  - apply empty_state_cache_ok.
  - vm_compute. reflexivity.
Defined.

Lemma get_loop_replay env n addr retval st l st' :
  get_loop env n addr retval st = (Ok l, st') ->
  forall s,
    get_one_instruction_cache st' ⊆ get_one_instruction_cache s ->
    get_loop env n addr retval s = (Ok l, s).
Proof.
  revert addr retval st.
  induction n as [|n IH]; intros addr retval st H s Hs.
  - inversion H; subst. reflexivity.
  - rewrite get_loop_S in H. rewrite get_loop_S.
    destruct (get_one_instruction env addr st) as [r1 st1] eqn:Hg.
    destruct r1 as [v|e]; [|discriminate].
    pose proof (get_one_instruction_stored _ _ _ _ _ Hg) as Hv.
    assert (get_one_instruction_cache st1 ⊆ get_one_instruction_cache st')
      as Hsub.
    { destruct v as [i|].
      - apply get_loop_frame in H as (_ & Hc & _). exact Hc.
      - inversion H; subst. reflexivity. }
    assert (get_one_instruction_cache s !! addr = Some v) as Hhit.
    { eapply map_subseteq_spec; [exact Hs|].
      eapply map_subseteq_spec; [exact Hsub | exact Hv]. }
    rewrite (get_one_instruction_hit _ _ _ _ Hhit).
    destruct v as [i|].
    + eapply IH; eassumption.
    + inversion H; subst. reflexivity.
Qed.

(** X7: asking [get] again for the same range, in the state the first
    call left, returns the same list and changes nothing: no memory is read
    and nothing is decoded the second time, also when the first call stopped
    early at an address where nothing decodes. *)
Theorem get_idempotent env addr instructions st l st' :
  get env addr instructions st = (Ok l, st') ->
  get env addr instructions st' = (Ok l, st').
Proof.
  rewrite !get_eq. destruct (memory_peek env addr).
  - intros H. eapply get_loop_replay; [exact H | reflexivity].
  - intros [= <- <-]. reflexivity.
Qed.

Lemma get_idempotent_witness :
  get (scenario 103) 100 5 (get (scenario 103) 100 5 empty_state).2
  = (Ok [i100; i103], (get (scenario 103) 100 5 empty_state).2).
Proof.
  apply (get_idempotent (scenario 103) 100 5 empty_state).
  vm_compute. reflexivity.
Defined.

(** ** How much memory a resolution reads *)

Lemma VariableInstructionSizeMax_value arch :
  default 4 (VariableInstructionSizeMax !! arch)
  = if bool_decide (arch ∈ ["i386"; "x86-64"]%string) then 16
    else if bool_decide (arch = "mips"%string) then 8 else 4.
Proof.
  unfold VariableInstructionSizeMax.
  cbn [list_to_map foldr uncurry fst snd].
  rewrite lookup_insert. case_decide as H1.
  { subst arch. reflexivity. }
  rewrite lookup_insert. case_decide as H2.
  { subst arch. reflexivity. }
  rewrite lookup_insert. case_decide as H3.
  { subst arch. reflexivity. }
  rewrite lookup_empty. cbn [default from_option id].
  rewrite bool_decide_eq_false_2.
  - rewrite bool_decide_eq_false_2 by congruence. reflexivity.
  - rewrite !elem_of_cons, elem_of_nil. intros [? | [? | []]]; congruence.
Qed.

(** X8: a call of the single-instruction resolver that is not answered by
    the memoization table reads memory exactly once, at the requested
    address, for 16 bytes on i386 and x86-64, 8 on mips and 4 on every other
    architecture, and then calls the decoder exactly once; a call answered
    by the table makes no call at all. *)
Theorem get_one_instruction_reads env addr st value st' :
  get_one_instruction env addr st = (Ok value, st') ->
  calls st'
  = match get_one_instruction_cache st !! addr with
    | Some _ => calls st
    | None =>
      EvDisasm addr
        :: EvRead addr
             (if bool_decide (arch_current env ∈ ["i386"; "x86-64"]%string)
              then 16
              else if bool_decide (arch_current env = "mips"%string)
                   then 8 else 4)
        :: calls st
    end.
Proof.
  intros H. rewrite <- VariableInstructionSizeMax_value.
  destruct (get_one_instruction_cases _ _ _ _ _ H)
    as [(v & -> & _ & ->) | [(md & -> & _ & _ & ->) | (e & _ & _ & [=] & _)]];
    reflexivity.
Qed.

Lemma get_one_instruction_reads_witness :
  calls (get_one_instruction at_syscall 300 empty_state).2
  = [EvDisasm 300; EvRead 300 16].
Proof.
  apply (get_one_instruction_reads at_syscall 300 empty_state (Some i300)).
  vm_compute. reflexivity.
Defined.

(** ** The window resolver, stage by stage *)

Lemma near_eq env addr instructions emulate st :
  near env addr instructions emulate st =
  match one env (Some addr) st with
  | (Ok (Some current), st1) =>
    match backward_cache_getitem (address current) st1 with
    | (Ok cached, st2) =>
      match one_if_cached env cached st2 with
      | (Ok insn, st3) =>
        match near_backward env (Z.to_nat instructions) instructions insn []
                st3 with
        | (Ok before, st4) =>
          let emulate' :=
            if negb (emu_module env)
               || negb (bool_decide (arch_current env ∈ arch_to_UC env))
            then false else emulate in
          if (addr =? regs_pc env) && emulate' then
            near_forward env (Z.to_nat (1 + 2 * instructions)) (regs_pc env)
              (1 + 2 * instructions) (Some current) (rev before ++ [current])
              emulate'
              (Some (single_step (emulator env) (Emulator (emulator env))).2)
              (log EvSingleStep (log EvEmulator st4))
          else
            near_forward env (Z.to_nat (1 + 2 * instructions)) (regs_pc env)
              (1 + 2 * instructions) (Some current) (rev before ++ [current])
              emulate' None st4
        | (Raise e, st4) => (Raise e, st4)
        end
      | (Raise e, st3) => (Raise e, st3)
      end
    | (Raise e, st2) => (Raise e, st2)
    end
  | (Ok None, st1) => (Ok [], st1)
  | (Raise e, st1) => (Raise e, st1)
  end.
Proof.
  unfold near, bind.
  destruct (one env (Some addr) st) as [[[current|]|e] st1] eqn:Ho;
    try reflexivity.
  pose proof (one_some_readable _ _ _ _ _ Ho) as Hp. cbn in Hp.
  rewrite Hp. cbn [negb].
  destruct (backward_cache_getitem (address current) st1) as [[cached|e] st2];
    [|reflexivity].
  destruct (one_if_cached env cached st2) as [[insn|e] st3]; [|reflexivity].
  destruct (near_backward env _ instructions insn [] st3)
    as [[before|e] st4]; [|reflexivity].
  cbn zeta.
  destruct ((addr =? regs_pc env) && _); reflexivity.
Qed.

(** Relations between the state before and after that every step of the
    window resolver keeps. *)
Section Preserved.

Context (env : Env) (R : State -> State -> Prop).

Hypothesis R_refl : forall st, R st st.
Hypothesis R_trans : forall st1 st2 st3, R st1 st2 -> R st2 st3 -> R st1 st3.
Hypothesis R_one :
  forall x st r st', one env x st = (r, st') -> R st st'.
Hypothesis R_getitem :
  forall k st r st', backward_cache_getitem k st = (r, st') -> R st st'.

Lemma one_if_cached_preserved cached st r st' :
  one_if_cached env cached st = (r, st') -> R st st'.
Proof.
  unfold one_if_cached. destruct (truthy cached); [apply R_one|].
  intros [= <- <-]. apply R_refl.
Qed.

Lemma near_backward_preserved fuel instructions insn insns st r st' :
  near_backward env fuel instructions insn insns st = (r, st') -> R st st'.
Proof.
  revert insn insns st.
  induction fuel as [|fuel IH]; intros insn insns st H.
  all: destruct insn as [i|];
    [|rewrite near_backward_stop in H by auto; inversion H; apply R_refl].
  all: destruct (Z_lt_le_dec (Z.of_nat (length insns)) instructions)
      as [Hlt|Hge];
    [|rewrite near_backward_stop in H by auto; inversion H; apply R_refl].
  all: destruct (near_backward_inv _ _ _ _ _ _ _ _ H Hlt)
      as [(Hf & _ & ->) | (fuel' & cached & st1 & Hf & Hc & Hrest)];
    try apply R_refl; try discriminate.
  injection Hf as <-.
  apply R_getitem in Hc.
  destruct Hrest as [(e & Ho & _) | (insn' & st2 & Ho & Hrec)].
  - eapply R_trans; [exact Hc|]. eapply one_if_cached_preserved, Ho.
  - eapply R_trans; [exact Hc|].
    eapply R_trans; [eapply one_if_cached_preserved, Ho | eapply IH, Hrec].
Qed.

Lemma near_forward_static_preserved fuel pc total insn insns emulate
    st r st' :
  near_forward env fuel pc total insn insns emulate None st = (r, st') ->
  R st st'.
Proof.
  revert insn insns emulate st.
  induction fuel as [|fuel IH]; intros insn insns emulate st H.
  all: destruct insn as [i|];
    [|rewrite near_forward_stop in H by auto; inversion H; apply R_refl].
  all: destruct (Z_lt_le_dec (Z.of_nat (length insns)) total) as [Hlt|Hge];
    [|rewrite near_forward_stop in H by auto; inversion H; apply R_refl].
  all: destruct (near_forward_inv _ _ _ _ _ _ _ _ _ _ _ H Hlt)
      as [(Hf & _ & ->) | (fuel' & tgt & em' & emu' & st1 & Hf & Ht & Hrest)];
    try apply R_refl; try discriminate.
  injection Hf as <-.
  assert (emu' = None /\ st1 = st) as [-> ->].
  { destruct (near_forward_target_cases _ _ _ _ _ _ _ _ Ht)
      as [(_ & [= _ _ He] & ->) | [(_ & _ & [= _ _ He] & ->)
         | (_ & e & t & e' & He & _)]];
      destruct (emulate && do_not_emulate i); auto; discriminate. }
  destruct Hrest as [(e & Ho & _) | [(Ho & _) | (j & st2 & Ho & Hrec)]].
  - eapply R_one, Ho.
  - eapply R_one, Ho.
  - eapply R_trans; [eapply R_one, Ho | eapply IH, Hrec].
Qed.

(** [near] when no emulator is created. *)
Lemma near_static_preserved addr instructions emulate st r st' :
  (addr =? regs_pc env)
  && (if negb (emu_module env)
         || negb (bool_decide (arch_current env ∈ arch_to_UC env))
      then false else emulate) = false ->
  near env addr instructions emulate st = (r, st') -> R st st'.
Proof.
  intros Hoff. rewrite near_eq. cbn zeta. rewrite Hoff.
  destruct (one env (Some addr) st) as [r1 st1] eqn:H1.
  apply R_one in H1.
  destruct r1 as [[current|]|e]; [| intros [= <- <-]; exact H1..].
  destruct (backward_cache_getitem (address current) st1) as [r2 st2] eqn:H2.
  apply R_getitem in H2.
  destruct r2 as [cached|e];
    [|intros [= <- <-]; eapply R_trans; eassumption].
  destruct (one_if_cached env cached st2) as [r3 st3] eqn:H3.
  apply one_if_cached_preserved in H3.
  destruct r3 as [insn|e];
    [|intros [= <- <-]; eauto using R_trans].
  destruct (near_backward env (Z.to_nat instructions) instructions insn []
              st3) as [r4 st4] eqn:H4.
  apply near_backward_preserved in H4.
  destruct r4 as [before|e];
    [|intros [= <- <-]; eauto using R_trans].
  intros H5. apply near_forward_static_preserved in H5.
  eauto using R_trans.
Qed.

Hypothesis R_log : forall e st, R st (log e st).

Lemma near_forward_preserved fuel pc total insn insns emulate emu st r st' :
  near_forward env fuel pc total insn insns emulate emu st = (r, st') ->
  R st st'.
Proof.
  revert insn insns emulate emu st.
  induction fuel as [|fuel IH]; intros insn insns emulate emu st H.
  all: destruct insn as [i|];
    [|rewrite near_forward_stop in H by auto; inversion H; apply R_refl].
  all: destruct (Z_lt_le_dec (Z.of_nat (length insns)) total) as [Hlt|Hge];
    [|rewrite near_forward_stop in H by auto; inversion H; apply R_refl].
  all: destruct (near_forward_inv _ _ _ _ _ _ _ _ _ _ _ H Hlt)
      as [(Hf & _ & ->) | (fuel' & tgt & em' & emu' & st1 & Hf & Ht & Hrest)];
    try apply R_refl; try discriminate.
  injection Hf as <-.
  assert (R st st1) as Hst.
  { destruct (near_forward_target_cases _ _ _ _ _ _ _ _ Ht)
      as [(_ & _ & ->) | [(_ & _ & _ & ->)
         | (_ & e & t & e' & _ & _ & ->)]]; auto. }
  destruct Hrest as [(e & Ho & _) | [(Ho & _) | (j & st2 & Ho & Hrec)]].
  - eapply R_trans; [exact Hst | eapply R_one, Ho].
  - eapply R_trans; [exact Hst | eapply R_one, Ho].
  - eapply R_trans; [exact Hst|].
    eapply R_trans; [eapply R_one, Ho | eapply IH, Hrec].
Qed.

Lemma near_preserved addr instructions emulate st r st' :
  near env addr instructions emulate st = (r, st') -> R st st'.
Proof.
  rewrite near_eq. cbn zeta.
  destruct (one env (Some addr) st) as [r1 st1] eqn:H1.
  apply R_one in H1.
  destruct r1 as [[current|]|e]; [| intros [= <- <-]; exact H1..].
  destruct (backward_cache_getitem (address current) st1) as [r2 st2] eqn:H2.
  apply R_getitem in H2.
  destruct r2 as [cached|e];
    [|intros [= <- <-]; eapply R_trans; eassumption].
  destruct (one_if_cached env cached st2) as [r3 st3] eqn:H3.
  apply one_if_cached_preserved in H3.
  destruct r3 as [insn|e];
    [|intros [= <- <-]; eauto using R_trans].
  destruct (near_backward env (Z.to_nat instructions) instructions insn []
              st3) as [r4 st4] eqn:H4.
  apply near_backward_preserved in H4.
  destruct r4 as [before|e];
    [|intros [= <- <-]; eauto using R_trans].
  destruct ((addr =? regs_pc env) && _); intros H5;
    apply near_forward_preserved in H5.
  - assert (R st4 (log EvSingleStep (log EvEmulator st4))) as Hlog
      by (eapply R_trans; apply R_log).
    exact (R_trans _ _ _ H1 (R_trans _ _ _ H2 (R_trans _ _ _ H3
             (R_trans _ _ _ H4 (R_trans _ _ _ Hlog H5))))).
  - exact (R_trans _ _ _ H1 (R_trans _ _ _ H2 (R_trans _ _ _ H3
             (R_trans _ _ _ H4 H5)))).
Qed.

End Preserved.

(** ** When the emulator is used *)

Lemma one_calls env x st r st' :
  one env x st = (r, st') -> calls_extend (decoder_event env) st st'.
Proof.
  intros H. destruct (one_cases _ _ _ _ _ H)
    as [(_ & _ & ->) | [(_ & Hg & _)
       | [(i & st1 & _ & Hg & _ & ->) | (e & _ & Hg & _)]]].
  - apply calls_extend_refl.
  - eapply get_one_instruction_calls, Hg.
  - apply get_one_instruction_calls in Hg. exact Hg.
  - eapply get_one_instruction_calls, Hg.
Qed.

Lemma backward_cache_getitem_calls k st r st' :
  backward_cache_getitem k st = (r, st') -> calls st' = calls st.
Proof.
  unfold backward_cache_getitem.
  destruct (backward_cache st !! k); intros [= <- <-]; reflexivity.
Qed.

(** X9: unless emulation is requested, available for the current
    architecture, and the anchor is the live program counter, [near] never
    creates or steps an emulator: every call it makes is a memory read of
    [read_size] bytes or a call of the decoder. *)
Theorem near_leaves_emulator_alone env addr instructions emulate st :
  emulate = false \/ emu_module env = false
  \/ arch_current env ∉ arch_to_UC env \/ addr <> regs_pc env ->
  calls_extend (decoder_event env) st
    (near env addr instructions emulate st).2.
Proof.
  intros Hoff.
  destruct (near env addr instructions emulate st) as [r st'] eqn:H.
  eapply (near_static_preserved env (calls_extend (decoder_event env)));
    [apply calls_extend_refl | apply calls_extend_trans | apply one_calls
    | | | exact H].
  - intros k s r0 s' Hk. apply backward_cache_getitem_calls in Hk.
    exists []. split; [exact Hk | constructor].
  - destruct Hoff as [-> | [-> | [Ha | Hpc]]].
    + destruct (_ || _); apply andb_false_r.
    + cbn [negb orb]. apply andb_false_r.
    + rewrite (bool_decide_eq_false_2 _ Ha). cbn [negb].
      rewrite orb_true_r. apply andb_false_r.
    + apply Z.eqb_neq in Hpc. rewrite Hpc. reflexivity.
Qed.

(** Emulation is requested, but the window is not anchored at the live
    program counter 300. *)
Lemma near_leaves_emulator_alone_witness :
  calls_extend (decoder_event at_syscall) empty_state
    (near at_syscall 302 2 true empty_state).2.
Proof.
  apply (near_leaves_emulator_alone at_syscall 302 2 true empty_state).
  right; right; right. discriminate.
Defined.

Lemma single_steps_decoder env evs l :
  Forall (decoder_event env) evs ->
  single_steps (evs ++ l) = single_steps l.
Proof.
  induction 1 as [|e evs He _ IH]; [reflexivity|].
  destruct e; cbn; [exact IH | exact IH | destruct He | destruct He].
Qed.

Lemma calls_extend_single_steps env st st' :
  calls_extend (decoder_event env) st st' ->
  single_steps (calls st') = single_steps (calls st).
Proof. intros (evs & -> & H). eapply single_steps_decoder, H. Qed.

Lemma near_forward_single_steps env fuel pc total insn insns emulate emu
    st r st' :
  near_forward env fuel pc total insn insns emulate emu st = (r, st') ->
  (single_steps (calls st')
   <= single_steps (calls st)
      + Z.to_nat (total - Z.of_nat (length insns)))%nat.
Proof.
  revert insn insns emulate emu st.
  induction fuel as [|fuel IH]; intros insn insns emulate emu st H.
  all: destruct insn as [i|];
    [|rewrite near_forward_stop in H by auto; inversion H; lia].
  all: destruct (Z_lt_le_dec (Z.of_nat (length insns)) total) as [Hlt|Hge];
    [|rewrite near_forward_stop in H by auto; inversion H; lia].
  all: destruct (near_forward_inv _ _ _ _ _ _ _ _ _ _ _ H Hlt)
      as [(Hf & _ & ->) | (fuel' & tgt & em' & emu' & st1 & Hf & Ht & Hrest)];
    try lia; try discriminate.
  injection Hf as <-.
  assert (single_steps (calls st1) <= S (single_steps (calls st)))%nat
    as Hst.
  { destruct (near_forward_target_cases _ _ _ _ _ _ _ _ Ht)
      as [(_ & _ & ->) | [(_ & _ & _ & ->)
         | (_ & e & t & e' & _ & _ & ->)]]; cbn; lia. }
  destruct Hrest as [(e & Ho & _) | [(Ho & _) | (j & st2 & Ho & Hrec)]].
  - apply one_calls, calls_extend_single_steps in Ho. lia.
  - apply one_calls, calls_extend_single_steps in Ho. lia.
  - apply one_calls, calls_extend_single_steps in Ho.
    apply IH in Hrec. rewrite length_app in Hrec. cbn [length] in Hrec.
    lia.
Qed.

(** X10: for a count >= 0, one call of [near] steps the emulator at most
    [2*count + 1] times: once when it creates it and at most once for each
    round of the forward pass. *)
Theorem near_single_steps env addr instructions emulate st r st' :
  0 <= instructions ->
  near env addr instructions emulate st = (r, st') ->
  (single_steps (calls st')
   <= single_steps (calls st) + Z.to_nat (2 * instructions + 1))%nat.
Proof.
  intros Hn. rewrite near_eq. cbn zeta.
  destruct (one env (Some addr) st) as [r1 st1] eqn:H1.
  apply one_calls, calls_extend_single_steps in H1.
  destruct r1 as [[current|]|e]; [| intros [= <- <-]; lia..].
  destruct (backward_cache_getitem (address current) st1) as [r2 st2] eqn:H2.
  apply backward_cache_getitem_calls in H2.
  destruct r2 as [cached|e]; [|intros [= <- <-]; rewrite H2; lia].
  destruct (one_if_cached env cached st2) as [r3 st3] eqn:H3.
  assert (single_steps (calls st3) = single_steps (calls st2)) as H3'.
  { revert H3. unfold one_if_cached. destruct (truthy cached).
    - intros H3. apply one_calls, calls_extend_single_steps in H3. exact H3.
    - intros [= <- <-]. reflexivity. }
  destruct r3 as [insn|e]; [|intros [= <- <-]; rewrite H3', H2; lia].
  destruct (near_backward env (Z.to_nat instructions) instructions insn []
              st3) as [r4 st4] eqn:H4.
  assert (single_steps (calls st4) = single_steps (calls st3)) as H4'.
  { eapply (near_backward_preserved env
              (fun s s' => single_steps (calls s')
                           = single_steps (calls s))); [ | | | | exact H4].
    - reflexivity.
    - intros s1 s2 s3 Ha Hb. congruence.
    - intros x s r0 s' Ho.
      apply one_calls, calls_extend_single_steps in Ho. exact Ho.
    - intros k s r0 s' Hk. apply backward_cache_getitem_calls in Hk.
      rewrite Hk. reflexivity. }
  destruct r4 as [before|e]; [|intros [= <- <-]; rewrite H4', H3', H2; lia].
  destruct ((addr =? regs_pc env) && _); intros H5;
    apply near_forward_single_steps in H5;
    rewrite length_app in H5; cbn [length calls log single_steps] in H5;
    rewrite H4', H3', H2, H1 in H5; lia.
Qed.

Lemma near_single_steps_witness :
  (single_steps (calls (near at_indirect_jump 302 1 true empty_state).2)
   <= single_steps (calls empty_state) + Z.to_nat (2 * 1 + 1))%nat.
Proof.
  apply (near_single_steps at_indirect_jump 302 1 true empty_state
           (near at_indirect_jump 302 1 true empty_state).1).
  - lia.
  - apply surjective_pairing.
Defined.

(** ** The recorded predecessors within one execution generation *)

Lemma get_one_instruction_consistent env addr st r st' :
  decoder_ok env -> consistent st ->
  get_one_instruction env addr st = (r, st') -> consistent st'.
Proof.
  intros Hd [Hc Hl] H. split.
  - eapply get_one_instruction_cache_ok; eassumption.
  - intros k a Hk.
    pose proof (get_one_instruction_backward_cache env addr st) as Hb.
    rewrite H in Hb. cbn in Hb. rewrite Hb in Hk.
    destruct (Hl k a Hk) as (i & Hi & Hn). exists i.
    split; [|exact Hn]. eapply get_one_instruction_cache_mono; eassumption.
Qed.

Lemma one_consistent env x st r st' :
  decoder_ok env -> consistent st ->
  one env x st = (r, st') -> consistent st'.
Proof.
  intros Hd Hst H. destruct (one_cases _ _ _ _ _ H)
    as [(_ & _ & ->) | [(_ & Hg & _)
       | [(i & st1 & _ & Hg & _ & ->) | (e & _ & Hg & _)]]].
  - exact Hst.
  - eapply get_one_instruction_consistent; eassumption.
  - pose proof (get_one_instruction_consistent _ _ _ _ _ Hd Hst Hg)
      as [Hc1 Hl1].
    destruct (get_one_instruction_cache_ok _ _ _ _ _ Hd (proj1 Hst) Hg)
      as [_ Ha].
    split; [exact Hc1|]. intros k a. cbn. rewrite lookup_insert.
    case_decide as Hk.
    + intros [= <-]. exists i. split; [|exact Hk].
      rewrite (Ha i eq_refl).
      eapply get_one_instruction_stored, Hg.
    + apply Hl1.
  - eapply get_one_instruction_consistent; eassumption.
Qed.

Lemma backward_cache_getitem_consistent k st r st' :
  consistent st ->
  backward_cache_getitem k st = (r, st') -> consistent st'.
Proof.
  intros [Hc Hl]. unfold backward_cache_getitem.
  destruct (backward_cache st !! k) as [v|] eqn:Hk;
    intros [= <- <-]; [split; assumption|].
  split; [exact Hc|]. intros k' a. cbn. rewrite lookup_insert.
  case_decide; [discriminate | apply Hl].
Qed.

(** X11: the property that every recorded predecessor is the address of a
    memoized instruction falling through to the key, and that memoized
    instructions sit under their own addresses, is kept by [one] and by
    [near], whatever they return.  It holds of a state with empty tables, so
    it holds throughout an execution generation started there.  (The decoder
    yields at each address a record carrying that address.) *)
Theorem near_consistent env :
  decoder_ok env ->
  (forall x st, consistent st -> consistent (one env x st).2)
  /\ (forall addr instructions emulate st,
        consistent st ->
        consistent (near env addr instructions emulate st).2).
Proof.
  intros Hd. split.
  - intros x st Hst. destruct (one env x st) as [r st'] eqn:H.
    eapply one_consistent; eassumption.
  - intros addr instructions emulate st Hst.
    destruct (near env addr instructions emulate st) as [r st'] eqn:H.
    revert Hst.
    eapply (near_preserved env (fun s s' => consistent s -> consistent s'));
      [ | | | | | exact H].
    + auto.
    + auto.
    + intros x s r0 s' Ho Hs. eapply one_consistent; eassumption.
    + intros k s r0 s' Hk Hs.
      eapply backward_cache_getitem_consistent; eassumption.
    + intros e s Hs. exact Hs.
Qed.

Lemma empty_state_consistent : consistent empty_state.
Proof.
  split; [apply empty_state_cache_ok|].
  intros k a. cbn. rewrite lookup_empty. discriminate.
Qed.

Lemma near_consistent_witness :
  consistent (near (scenario 200) 103 1 false empty_state).2.
Proof.
  apply (proj2 (near_consistent (scenario 200)
                  (debuggee_decoder_ok _ _ _ _))).
  apply empty_state_consistent.
Defined.

(** The instruction found through the recorded predecessor of [b] falls
    through to [b]. *)
Lemma predecessor_link env b st cached st1 a st2 :
  consistent st ->
  backward_cache_getitem (address b) st = (Ok cached, st1) ->
  one_if_cached env cached st1 = (Ok (Some a), st2) ->
  link a b.
Proof.
  intros [Hc Hl]. unfold backward_cache_getitem, one_if_cached.
  destruct (backward_cache st !! address b) as [v|] eqn:Hb;
    intros [= <- <-]; [|discriminate].
  destruct v as [c|]; [|discriminate]. cbn [truthy].
  destruct (Z.eqb_spec c 0) as [->|Hz]; [discriminate|]. cbn [negb].
  intros Ho.
  destruct (Hl _ _ Hb) as (i & Hi & Hn).
  destruct (one_cases _ _ _ _ _ Ho)
    as [(_ & [=] & _) | [(_ & _ & [=])
       | [(j & s & _ & Hg & [= <-] & _) | (e & _ & _ & [=])]]].
  cbn in Hg. rewrite (get_one_instruction_hit _ _ _ _ Hi) in Hg.
  injection Hg as <- _.
  split; [exact Hn|]. rewrite (Hc _ _ Hi). exact Hz.
Qed.

Lemma one_if_cached_consistent env cached st r st' :
  decoder_ok env -> consistent st ->
  one_if_cached env cached st = (r, st') -> consistent st'.
Proof.
  intros Hd Hst. unfold one_if_cached. destruct (truthy cached).
  - apply one_consistent; assumption.
  - intros [= <- <-]. exact Hst.
Qed.

Lemma near_backward_links env fuel instructions insn insns tip st l st' :
  decoder_ok env -> consistent st ->
  (forall i, insn = Some i -> link i tip) ->
  near_backward env fuel instructions insn insns st = (Ok l, st') ->
  exists more, l = insns ++ more /\ chain (flip link) (tip :: more).
Proof.
  intros Hd. revert insn insns tip st.
  induction fuel as [|fuel IH]; intros insn insns tip st Hst Htip H.
  all: destruct insn as [i|];
    [|rewrite near_backward_stop in H by auto; inversion H; subst;
      exists []; rewrite app_nil_r; cbn; auto].
  all: destruct (Z_lt_le_dec (Z.of_nat (length insns)) instructions)
      as [Hlt|Hge];
    [|rewrite near_backward_stop in H by auto; inversion H; subst;
      exists []; rewrite app_nil_r; cbn; auto].
  all: destruct (near_backward_inv _ _ _ _ _ _ _ _ H Hlt)
      as [(_ & [=] & _) | (fuel' & cached & st1 & Hf & Hc & Hrest)];
    try discriminate.
  injection Hf as <-.
  destruct Hrest as [(e & _ & [=]) | (insn' & st2 & Ho & Hrec)].
  pose proof (backward_cache_getitem_consistent _ _ _ _ Hst Hc) as Hst1.
  pose proof (one_if_cached_consistent _ _ _ _ _ Hd Hst1 Ho) as Hst2.
  apply (IH _ _ i) in Hrec as (more & -> & Hchain); [|exact Hst2|].
  - exists (i :: more). rewrite <- app_assoc. split; [reflexivity|].
    change (flip link tip i /\ chain (flip link) (i :: more)).
    split; [exact (Htip i eq_refl) | exact Hchain].
  - intros j ->. exact (predecessor_link _ _ _ _ _ _ _ Hst Hc Ho).
Qed.

Lemma chain_snoc {A : Type} (R : A -> A -> Prop) l a b :
  chain R (l ++ [a]) -> R a b -> chain R ((l ++ [a]) ++ [b]).
Proof.
  induction l as [|x [|y l] IH]; cbn; auto.
  - intros [Hxa _] Hab. auto.
  - intros [Hxy Hl] Hab. split; [exact Hxy|]. apply IH; assumption.
Qed.

Lemma chain_rev {A : Type} (R : A -> A -> Prop) l :
  chain (flip R) l -> chain R (rev l).
Proof.
  induction l as [|a [|b l] IH]; cbn [rev]; [exact (fun _ => I)..|].
  intros [Hab Hl]. apply chain_snoc; [apply IH, Hl | exact Hab].
Qed.

(** X12: in a state with that property, the instructions [near] puts
    before the anchor form a chain that ends at the anchor: each of them
    falls through to the one after it, and none of them is at address 0. *)
Theorem near_backward_chain env addr instructions emulate st l st' :
  decoder_ok env -> consistent st ->
  near env addr instructions emulate st = (Ok l, st') ->
  l = []
  \/ exists before current after,
      l = before ++ current :: after
      /\ (one env (Some addr) st).1 = Ok (Some current)
      /\ Z.of_nat (length before) <= Z.max 0 instructions
      /\ chain link (before ++ [current]).
Proof.
  intros Hd Hst H.
  destruct (near_stages _ _ _ _ _ _ _ H)
    as [(e & _ & [=]) | [(_ & [= <-])
       | (current & st1 & cached & st2 & Ho & Hget & Hrest)]];
    [left; reflexivity|].
  right.
  pose proof (one_consistent _ _ _ _ _ Hd Hst Ho) as Hst1.
  pose proof (backward_cache_getitem_consistent _ _ _ _ Hst1 Hget) as Hst2.
  destruct Hrest as [(e & _ & [=]) | (insn & st3 & Hi & Hrest)].
  pose proof (one_if_cached_consistent _ _ _ _ _ Hd Hst2 Hi) as Hst3.
  destruct Hrest
    as [(e & _ & [=]) | (before & st4 & em' & emu & st5 & Hb & _ & Hf)].
  pose proof (near_backward_length _ _ _ _ _ _ _ _ Hb) as [_ Hlen];
    [cbn [length]; lia|]. cbn [length] in Hlen.
  apply (near_backward_links _ _ _ _ _ current) in Hb
    as (more & Hmore & Hchain); [|assumption..|].
  2:{ intros j ->. exact (predecessor_link _ _ _ _ _ _ _ Hst1 Hget Hi). }
  cbn [app] in Hmore. subst more.
  apply near_forward_length in Hf as [[after ->] _]; [|lia].
  exists (rev before), current, after.
  rewrite <- app_assoc. split; [reflexivity|].
  rewrite Ho. split; [reflexivity|].
  rewrite length_rev. split; [exact Hlen|].
  apply chain_rev in Hchain. exact Hchain.
Qed.

Lemma near_backward_chain_witness :
  [i100; i103] = []
  \/ exists before current after,
      [i100; i103] = before ++ current :: after
      /\ (one (scenario 103) (Some 103)
            (one (scenario 103) (Some 100) empty_state).2).1
         = Ok (Some current)
      /\ Z.of_nat (length before) <= Z.max 0 1
      /\ chain link (before ++ [current]).
Proof.
  apply (near_backward_chain (scenario 103) 103 1 false
           (one (scenario 103) (Some 100) empty_state).2 [i100; i103]
           (near (scenario 103) 103 1 false
              (one (scenario 103) (Some 100) empty_state).2).2).
  - apply debuggee_decoder_ok.
  - eapply one_consistent;
      [apply debuggee_decoder_ok | apply empty_state_consistent
      | apply surjective_pairing].
  - vm_compute. reflexivity.
Defined.

(** ** What the window resolver keeps, returns and raises *)

(** X13: [near] never drops or changes a memoized result, and never erases
    a recorded predecessor: a key of [backward_cache] that named a
    predecessor still names one afterwards (possibly another one). *)
Theorem near_keeps_tables env addr instructions emulate st :
  get_one_instruction_cache st
  ⊆ get_one_instruction_cache (near env addr instructions emulate st).2
  /\ (forall k a,
        backward_cache st !! k = Some (Some a) ->
        exists a',
          backward_cache (near env addr instructions emulate st).2 !! k
          = Some (Some a')).
Proof.
  destruct (near env addr instructions emulate st) as [r st'] eqn:H.
  cbn [snd].
  eapply (near_preserved env
            (fun s s' =>
               get_one_instruction_cache s ⊆ get_one_instruction_cache s'
               /\ forall k a,
                   backward_cache s !! k = Some (Some a) ->
                   exists a', backward_cache s' !! k = Some (Some a')));
    [ | | | | | exact H].
  - intros s. split; [reflexivity | eauto].
  - intros s1 s2 s3 [Hc1 Hb1] [Hc2 Hb2]. split; [etrans; eassumption|].
    intros k a Hk. destruct (Hb1 _ _ Hk) as [a' Hk']. eauto.
  - intros x s r0 s' Ho. split.
    + apply map_subseteq_spec. intros a v. eapply one_cache_mono, Ho.
    + intros k a Hk. destruct (one_cases _ _ _ _ _ Ho)
        as [(_ & _ & ->) | [(_ & Hg & _)
           | [(i & s1 & _ & Hg & _ & ->) | (e & _ & Hg & _)]]].
      * eauto.
      * pose proof (get_one_instruction_backward_cache env
                      (default (regs_pc env) x) s) as Hb.
        rewrite Hg in Hb. cbn in Hb. rewrite Hb. eauto.
      * pose proof (get_one_instruction_backward_cache env
                      (default (regs_pc env) x) s) as Hb.
        rewrite Hg in Hb. cbn in Hb. cbn. rewrite lookup_insert.
        case_decide; [eauto|]. rewrite Hb. eauto.
      * pose proof (get_one_instruction_backward_cache env
                      (default (regs_pc env) x) s) as Hb.
        rewrite Hg in Hb. cbn in Hb. rewrite Hb. eauto.
  - intros k s r0 s'. unfold backward_cache_getitem.
    destruct (backward_cache s !! k) as [v|] eqn:Hk; intros [= <- <-].
    + split; [reflexivity | eauto].
    + split; [reflexivity|]. intros k' a Hk'. cbn. rewrite lookup_insert.
      case_decide; [congruence | eauto].
  - intros e s. split; [reflexivity | eauto].
Qed.

Lemma near_keeps_tables_witness :
  exists a',
    backward_cache (near (scenario 103) 103 1 false scenario_recorded).2
    !! 103 = Some (Some a').
Proof.
  apply (proj2 (near_keeps_tables (scenario 103) 103 1 false
                  scenario_recorded) 103 100).
  reflexivity.
Defined.

(** X14: when the decoder session cannot be built, a window request at a
    readable anchor that is not memoized raises that configuration error and
    leaves the state as it was: nothing is read, decoded or recorded. *)
Theorem near_raises env addr instructions emulate st e :
  memory_peek env addr = true ->
  get_one_instruction_cache st !! addr = None ->
  get_disassembler env addr = Raise e ->
  near env addr instructions emulate st = (Raise e, st).
Proof.
  intros Hp Hc Hd. unfold near, bind. rewrite one_eq.
  cbn [default from_option id]. cbn zeta.
  rewrite Hp, (get_one_instruction_miss _ _ _ Hc), Hd. reflexivity.
Qed.

Lemma near_raises_witness :
  near unsupported 103 1 false empty_state
  = (Raise UnsupportedArchitecture, empty_state).
Proof.
  apply (near_raises unsupported 103 1 false empty_state).
  - reflexivity.
  - reflexivity.
  - vm_compute. reflexivity.
Defined.

(** X15: with a count of 0 or less, [near] returns the anchor instruction
    alone when the anchor resolves, and the empty list when it does not: no
    predecessor is added and the forward pass does not run. *)
Theorem near_anchor_only env addr instructions emulate st l st' :
  instructions <= 0 ->
  near env addr instructions emulate st = (Ok l, st') ->
  l = match (one env (Some addr) st).1 with
      | Ok (Some current) => [current]
      | _ => []
      end.
Proof.
  intros Hn H.
  destruct (near_stages _ _ _ _ _ _ _ H)
    as [(e & _ & [=]) | [(Ho & [= <-])
       | (current & st1 & cached & st2 & Ho & _ & Hrest)]].
  { rewrite Ho. reflexivity. }
  rewrite Ho. cbn [fst].
  destruct Hrest as [(e & _ & [=]) | (insn & st3 & _ & Hrest)].
  destruct Hrest
    as [(e & _ & [=]) | (before & st4 & em' & emu & st5 & Hb & _ & Hf)].
  rewrite near_backward_stop in Hb by (right; cbn [length]; lia).
  injection Hb as <- _. cbn [rev app] in Hf.
  rewrite near_forward_stop in Hf by (right; cbn [length]; lia).
  injection Hf as <- _. reflexivity.
Qed.

Lemma near_anchor_only_witness :
  [i103]
  = match (one (scenario 200) (Some 103) scenario_recorded).1 with
    | Ok (Some current) => [current]
    | _ => []
    end.
Proof.
  apply (near_anchor_only (scenario 200) 103 0 false scenario_recorded
           [i103] (near (scenario 200) 103 0 false scenario_recorded).2).
  - lia.
  - vm_compute. reflexivity.
Defined.

(** ** A round of the forward pass with the emulator *)

Lemma near_forward_target_emulated env pc i emulate e st :
  is_call i = false ->
  emulate && do_not_emulate i = false ->
  near_forward_target env pc i emulate (Some e) st
  = (Ok (match (single_step (emulator env) e).1 with
         | (Some t, Some _) => Some t
         | _ => target i
         end,
         emulate, Some (single_step (emulator env) e).2),
     log EvSingleStep st).
Proof.
  intros Hcall Hoff. unfold near_forward_target. cbn zeta.
  rewrite Hoff, Hcall. unfold bind, emu_single_step, modify, ret.
  destruct (single_step (emulator env) e) as [[tc sc] e'].
  destruct tc, sc; reflexivity.
Qed.

(** X16: in a round of the forward pass that has an emulator object, at
    an instruction that is not a call and does not shut emulation off, the
    window continues at the address the emulator reports; when the emulator
    reports no address or no size it continues at the instruction's static
    target, whether or not that is the live program counter, and at the
    live program counter when the instruction has no static target.  (Same
    contract of the decoder as before.) *)
Theorem near_forward_follows_emulator env fuel pc total i insns emulate e
    st l st' :
  decoder_ok env -> cache_ok st ->
  Z.of_nat (length insns) < total ->
  is_call i = false ->
  emulate && do_not_emulate i = false ->
  near_forward env fuel pc total (Some i) insns emulate (Some e) st
  = (Ok l, st') ->
  l = insns
  \/ exists j more,
      l = insns ++ j :: more
      /\ address j
         = default (regs_pc env)
             (match (single_step (emulator env) e).1 with
              | (Some t, Some _) => Some t
              | _ => target i
              end).
Proof.
  intros Hd Hc Hlt Hcall Hoff H.
  destruct (near_forward_inv _ _ _ _ _ _ _ _ _ _ _ H Hlt)
    as [(_ & [=] & _) | (fuel' & tgt & em' & emu' & st1 & _ & Ht & Hrest)].
  rewrite (near_forward_target_emulated _ _ _ _ _ _ Hcall Hoff) in Ht.
  injection Ht as <- <- <- <-.
  destruct Hrest as [(e0 & _ & [=]) | [(_ & [= <-]) | (j & st2 & Ho & Hrec)]];
    [left; reflexivity|].
  right.
  assert (cache_ok (log EvSingleStep st)) as Hc1 by exact Hc.
  destruct (one_cache_ok _ _ _ _ _ Hd Hc1 Ho) as [Hc2 Haddr].
  apply near_forward_chain in Hrec as (more & -> & _); [|assumption..].
  exists j, more. rewrite <- app_assoc. split; [reflexivity|].
  apply Haddr. reflexivity.
Qed.

(** At the indirect jump 302 the emulator reports 400. *)
Lemma near_forward_follows_emulator_witness :
  [i302; i400] = [i302]
  \/ exists j more,
      [i302; i400] = [i302] ++ j :: more
      /\ address j
         = default (regs_pc at_indirect_jump)
             (match (single_step (emulator at_indirect_jump)
                       [(Some 400, Some 2); (Some 402, Some 2)]).1 with
              | (Some t, Some _) => Some t
              | _ => target i302
              end).
Proof.
  apply (near_forward_follows_emulator at_indirect_jump 2 302 3 i302 [i302]
           true [(Some 400, Some 2); (Some 402, Some 2)] empty_state
           [i302; i400]
           (near_forward at_indirect_jump 2 302 3 (Some i302) [i302] true
              (Some [(Some 400, Some 2); (Some 402, Some 2)])
              empty_state).2).
  - apply debuggee_decoder_ok.
  - apply empty_state_cache_ok.
  - cbn [length]. lia.
  - reflexivity.
  - reflexivity.
  - vm_compute. reflexivity.
Defined.

(** ** Only readable memory is shown *)

Lemma one_readable env x st j st' :
  decoder_ok env -> cache_ok st ->
  one env x st = (Ok (Some j), st') -> readable env j.
Proof.
  intros Hd Hc H. unfold readable.
  destruct (one_cache_ok _ _ _ _ _ Hd Hc H) as [_ Ha].
  rewrite (Ha j eq_refl). eapply one_some_readable, H.
Qed.

Lemma backward_cache_getitem_cache k st r st' :
  backward_cache_getitem k st = (r, st') ->
  get_one_instruction_cache st' = get_one_instruction_cache st.
Proof.
  unfold backward_cache_getitem.
  destruct (backward_cache st !! k); intros [= <- <-]; reflexivity.
Qed.

Lemma one_if_cached_readable env cached st r st' :
  decoder_ok env -> cache_ok st ->
  one_if_cached env cached st = (r, st') ->
  cache_ok st' /\ forall j, r = Ok (Some j) -> readable env j.
Proof.
  intros Hd Hc. unfold one_if_cached. destruct (truthy cached).
  - intros H. split; [eapply one_cache_ok; eassumption|].
    intros j ->. eapply one_readable; eassumption.
  - intros [= <- <-]. split; [exact Hc | discriminate].
Qed.

Lemma near_backward_readable env fuel instructions insn insns st l st' :
  decoder_ok env -> cache_ok st ->
  (forall i, insn = Some i -> readable env i) ->
  Forall (readable env) insns ->
  near_backward env fuel instructions insn insns st = (Ok l, st') ->
  Forall (readable env) l /\ cache_ok st'.
Proof.
  intros Hd. revert insn insns st.
  induction fuel as [|fuel IH]; intros insn insns st Hc Hi Hl H.
  all: destruct insn as [i|];
    [|rewrite near_backward_stop in H by auto; inversion H; subst; auto].
  all: destruct (Z_lt_le_dec (Z.of_nat (length insns)) instructions)
      as [Hlt|Hge];
    [|rewrite near_backward_stop in H by auto; inversion H; subst; auto].
  all: destruct (near_backward_inv _ _ _ _ _ _ _ _ H Hlt)
      as [(_ & [=] & _) | (fuel' & cached & st1 & Hf & Hg & Hrest)];
    try discriminate.
  injection Hf as <-.
  destruct Hrest as [(e & _ & [=]) | (insn' & st2 & Ho & Hrec)].
  assert (cache_ok st1) as Hc1.
  { intros a j. rewrite (backward_cache_getitem_cache _ _ _ _ Hg).
    apply Hc. }
  destruct (one_if_cached_readable _ _ _ _ _ Hd Hc1 Ho) as [Hc2 Hj].
  eapply IH; [exact Hc2 | | | exact Hrec].
  - intros j ->. apply Hj. reflexivity.
  - apply Forall_app. split; [exact Hl|].
    constructor; [exact (Hi i eq_refl) | constructor].
Qed.

Lemma near_forward_readable env fuel pc total insn insns emulate emu
    st l st' :
  decoder_ok env -> cache_ok st ->
  Forall (readable env) insns ->
  near_forward env fuel pc total insn insns emulate emu st = (Ok l, st') ->
  Forall (readable env) l.
Proof.
  intros Hd. revert insn insns emulate emu st.
  induction fuel as [|fuel IH]; intros insn insns emulate emu st Hc Hl H.
  all: destruct insn as [i|];
    [|rewrite near_forward_stop in H by auto; inversion H; subst; auto].
  all: destruct (Z_lt_le_dec (Z.of_nat (length insns)) total) as [Hlt|Hge];
    [|rewrite near_forward_stop in H by auto; inversion H; subst; auto].
  all: destruct (near_forward_inv _ _ _ _ _ _ _ _ _ _ _ H Hlt)
      as [(_ & [=] & _) | (fuel' & tgt & em' & emu' & st1 & Hf & Ht & Hrest)];
    try discriminate.
  injection Hf as <-.
  destruct (near_forward_target_choice _ _ _ _ _ _ _ _ _ _ Ht)
    as (Hcache & _).
  assert (cache_ok st1) as Hc1.
  { intros a j. rewrite Hcache. apply Hc. }
  destruct Hrest as [(e & _ & [=]) | [(_ & [= <-]) | (j & st2 & Ho & Hrec)]];
    [exact Hl|].
  eapply IH; [| | exact Hrec].
  - eapply one_cache_ok; eassumption.
  - apply Forall_app. split; [exact Hl|].
    constructor; [eapply one_readable; eassumption | constructor].
Qed.

(** X17: every instruction of a window returned by [near] is at an
    address that the readability probe accepts: an address that is no
    longer readable is not shown, not even from the memoization table or
    through a recorded predecessor.  (Same contract of the decoder as
    before.) *)
Theorem near_shows_readable env addr instructions emulate st l st' :
  decoder_ok env -> cache_ok st ->
  near env addr instructions emulate st = (Ok l, st') ->
  Forall (readable env) l.
Proof.
  intros Hd Hc H.
  destruct (near_stages _ _ _ _ _ _ _ H)
    as [(e & _ & [=]) | [(_ & [= ->])
       | (current & st1 & cached & st2 & Ho & Hget & Hrest)]];
    [constructor|].
  pose proof (one_readable _ _ _ _ _ Hd Hc Ho) as Hcur.
  destruct (one_cache_ok _ _ _ _ _ Hd Hc Ho) as [Hc1 _].
  assert (cache_ok st2) as Hc2.
  { intros a j. rewrite (backward_cache_getitem_cache _ _ _ _ Hget).
    apply Hc1. }
  destruct Hrest as [(e & _ & [=]) | (insn & st3 & Hi & Hrest)].
  destruct (one_if_cached_readable _ _ _ _ _ Hd Hc2 Hi) as [Hc3 Hinsn].
  destruct Hrest
    as [(e & _ & [=]) | (before & st4 & em' & emu & st5 & Hb & Hst5 & Hf)].
  apply near_backward_readable in Hb as [Hbefore Hc4];
    [|assumption | assumption | | constructor].
  2:{ intros j ->. apply Hinsn. reflexivity. }
  assert (cache_ok st5) as Hc5.
  { destruct Hst5 as [-> | ->]; exact Hc4. }
  eapply near_forward_readable; [exact Hd | exact Hc5 | | exact Hf].
  apply Forall_app. split.
  - apply Forall_rev. exact Hbefore.
  - constructor; [exact Hcur | constructor].
Qed.

(** After the page of 4095 is unmapped, the window at 4096 holds 4096
    alone. *)
Lemma near_shows_readable_witness :
  Forall (readable after_unmap) [i4096].
Proof.
  apply (near_shows_readable after_unmap 4096 1 false
           (mkState {[ 4096 := Some 4095 ]} ∅ []) [i4096]
           (near after_unmap 4096 1 false
              (mkState {[ 4096 := Some 4095 ]} ∅ [])).2).
  - apply debuggee_decoder_ok.
  - intros a j. cbn. rewrite lookup_empty. discriminate.
  - vm_compute. reflexivity.
Defined.
